(** * MainSA.cpp: the master process of the simulation runner

    A shallow embedding of [src/cmd/MainSA.cpp]: the command-line parameter
    injection, the replicate scheduling loop of [executeSimulation], the
    shutdown path and the exit code of [main].

    Conventions.
    - [int] values are [Z]; the increments and decrements the code performs
      on them are written with their 32-bit wrap-around ([wrap_int]);
      [unsigned long long] is [Z] reduced modulo 2^64 ([wrap_ull]).
    - [std::string] is [string]; [std::map] is [gmap]; [std::vector] and
      [std::list] are [list].
    - A C++ exception is a value of [exn]; code that can throw returns a
      [result].
    - What the master process cannot decide by itself (the abort flag, the
      answers of [hasReplicateFinished], the exit codes of the replicates,
      a failing [nanosleep]) is read from an explicit environment [Env]. *)

From Stdlib Require Import ZArith String Ascii List Lia DecimalString.
From stdpp Require Import gmap strings list fin_maps.

Set Warnings "-clear-no-such-hyp".

Local Open Scope string_scope.
Local Open Scope list_scope.
Local Open Scope Z_scope.

(** ** Exceptions and results *)

(** The exception classes that [main] distinguishes in its handlers. *)
Inductive exn : Type :=
  | CommandLineArgumentException (what : string)
  | LmException (what : string)
  | StdException (what : string)
  | UnknownException.

Inductive result (A : Type) : Type :=
  | Ok (a : A)
  | Throw (e : exn).
Arguments Ok {A} a.
Arguments Throw {A} e.

(** Sequencing stops at the first exception. *)
Definition bind {A B : Type} (r : result A) (k : A → result B) : result B :=
  match r with
  | Ok a => k a
  | Throw e => Throw e
  end.

Notation "'try' x := r 'in' k" := (bind r (fun x => k))
  (at level 10, x name, r at level 100, k at level 200,
   format "'[' 'try'  x  :=  r  'in' ']' '/ ' k").

(** ** What the master process prints and does, as a trace *)

Inductive Event : Type :=
  | MalformedParameter (token : string)
  | SettingParameter (k v : string)
  | LoopIteration
  | ReplicateCompleted (replicate exitCode : Z)
  | ReplicateStarted (replicate : Z)
  | Slept (nanoseconds : Z)
  | MasterSleeping (replicatesRunning replicatesRemaining : Z)
  | StopCheckpointing
  | AbortWorkers
  | StopWorkers.

(** ** std::string operations used by the parameter injection *)

(** [s.find(pat)]: the position of the first occurrence of [pat] in [s],
    [None] standing for [string::npos]. *)
Fixpoint find (s pat : string) : option nat :=
  if String.prefix pat s then Some O
  else match s with
       | EmptyString => None
       | String _ s' => S <$> find s' pat
       end.

Fixpoint str_drop (n : nat) (s : string) : option string :=
  match n, s with
  | O, _ => Some s
  | S n', String _ s' => str_drop n' s'
  | S _, EmptyString => None
  end.

Fixpoint str_take (n : nat) (s : string) : string :=
  match n, s with
  | S n', String c s' => String c (str_take n' s')
  | _, _ => EmptyString
  end.

(** The [what()] of the [std::out_of_range] that [substr] throws, in the
    wording of libstdc++ (the position and the size in decimal); other
    standard libraries word it differently, and no statement below depends
    on the wording. *)
Definition out_of_range_what (pos size : nat) : string :=
  "basic_string::substr: __pos (which is "
  +:+ NilZero.string_of_uint (Nat.to_uint pos)
  +:+ ") > this->size() (which is "
  +:+ NilZero.string_of_uint (Nat.to_uint size) +:+ ")".

(** [s.substr(pos, len)], [len = None] for the default [npos]: throws
    [std::out_of_range], a [std::exception], when [pos > s.size()], and
    stops at the end of [s] otherwise. *)
Definition substr (s : string) (pos : nat) (len : option nat) : result string :=
  match str_drop pos s with
  | None => Throw (StdException (out_of_range_what pos (String.length s)))
  | Some t => Ok (match len with
                  | Some n => str_take n t
                  | None => t
                  end)
  end.

(** ** Injection of the command-line parameters (lines 249-266) *)

(** One turn of the loop over [cmdline_parameters]. *)
Definition inject_parameter (it : string)
    (st : gmap string string * list Event)
    : result (gmap string string * list Event) :=
  let '(simulationParameters, log) := st in
  match find it "=" with
  | None => Ok (simulationParameters, log ++ [MalformedParameter it])
  | Some eqpos =>
      try k := substr it 0%nat (Some eqpos) in
      try v := substr it (eqpos + 1)%nat None in
      Ok (<[k := v]> simulationParameters, log ++ [SettingParameter k v])
  end.

Fixpoint inject_parameters (cmdline_parameters : list string)
    (st : gmap string string * list Event)
    : result (gmap string string * list Event) :=
  match cmdline_parameters with
  | [] => Ok st
  | it :: rest => try st' := inject_parameter it st in inject_parameters rest st'
  end.

(** The character test behind the statements: does [s] hold [c]? *)
Fixpoint has_char (c : ascii) (s : string) : bool :=
  match s with
  | EmptyString => false
  | String a s' => if Ascii.eqb a c then true else has_char c s'
  end.

Definition has_eq (s : string) : bool := has_char "="%char s.

(** A token reads [k=v] when it is [k], an equals sign, and [v]. *)
Definition assigns (k v : string) : string := k +:+ "=" +:+ v.

(** The overrides as the specification words them: the well-formed tokens,
    each split at its first equals sign, applied in argument order. *)
Fixpoint spec_key_value (token : string) : option (string * string) :=
  match token with
  | EmptyString => None
  | String c rest =>
      if Ascii.eqb c "="%char then Some (EmptyString, rest)
      else match spec_key_value rest with
           | Some (k, v) => Some (String c k, v)
           | None => None
           end
  end.

(** What the loop prints for a token. *)
Definition parameter_event (token : string) : Event :=
  match spec_key_value token with
  | Some (k, v) => SettingParameter k v
  | None => MalformedParameter token
  end.

Definition spec_apply_overrides (file : gmap string string)
    (tokens : list string) : gmap string string :=
  foldl (fun m kv => <[kv.1 := kv.2]> m) file (omap spec_key_value tokens).

(** ** Machine integers *)

Definition INT_MAX : Z := 2147483647.

(** The value an [int] holds after an arithmetic result [z]. *)
Definition wrap_int (z : Z) : Z := (z + 2 ^ 31) mod 2 ^ 32 - 2 ^ 31.

(** The value an [unsigned long long] holds after an arithmetic result [z]. *)
Definition wrap_ull (z : Z) : Z := z mod 2 ^ 64.

(** ** Globals and collaborators *)

(** The globals of [cmd/common] that [parseArguments] fills in. *)
Record Config : Type := {
  functionOption : string;
  replicates : list Z;
  cmdline_parameters : list string;
}.

(** The answers of everything outside this file.
    - [parseArgumentsFailure]: the exception [parseArguments] throws, if any.
    - [setupFailure]: the exception thrown by the collaborators that
      [executeSimulation] sets up before it asks for the number of
      simultaneous replicates (allocator, threads, simulation file), if any.
    - [getMaxSimultaneousReplicates], [getParameters]: the values returned
      by the resource allocator and by the simulation file.
    - [abortRaisedAt]: [globalAbort] is read by the loop condition and once
      more by the shutdown path; the reads are numbered from 0 in program
      order and [Some n] says that read [n] is the first one to see the flag
      set ([None]: no read sees it set).
    - [hasReplicateFinished i j r]: the answer of the runner of replicate
      [r] to the poll made by the [j]-th call of [popNextFinishedReplicate]
      in loop iteration [i].
    - [getReplicateExitCode r]: the exit code the runner of [r] reports.
    - [nanosleepFails i]: [nanosleep] in iteration [i] returns nonzero with
      [errno] other than [EINTR]. *)
Record Env : Type := {
  parseArgumentsFailure : option exn;
  setupFailure : option exn;
  getMaxSimultaneousReplicates : Z;
  getParameters : gmap string string;
  abortRaisedAt : option nat;
  hasReplicateFinished : nat → nat → Z → bool;
  getReplicateExitCode : Z → Z;
  nanosleepFails : nat → bool;
}.

(** Modelled from the spec: the flag [globalAbort] is declared in
    [core/Globals] and written by the signal handler, both outside this
    file; it is "set exactly once (no reset)". This is its value at its
    [n]-th read. *)
Definition globalAbort (env : Env) (n : nat) : bool :=
  match abortRaisedAt env with
  | Some k => (k <=? n)%nat
  | None => false
  end.

(** A [ReplicateRunner], as far as the master looks into it. *)
Record Runner : Type := { getReplicate : Z }.

(** ** The state of the scheduling loop *)

Record LoopState : Type := {
  simulationStatusTable : gmap Z Z;
  assignedSimulations : Z;
  runningReplicates : list Runner;
  noopLoopCycles : Z;
}.

(** One observable action of the loop, with the state before and after. *)
Record Step : Type := {
  pre : LoopState;
  event : Event;
  post : LoopState;
}.

(** [m[k]] of [std::map<int,int>] used as a read: a missing key is
    inserted with the value 0. *)
Definition index (m : gmap Z Z) (k : Z) : Z * gmap Z Z :=
  match m !! k with
  | Some v => (v, m)
  | None => (0, <[k := 0]> m)
  end.

(** Lines 239-246: every replicate of the list gets status 0. *)
Definition init_status (replicates : list Z) : gmap Z Z :=
  foldl (fun tbl it => <[it := 0]> tbl) ∅ replicates.

Definition init_state (replicates : list Z) : LoopState :=
  {| simulationStatusTable := init_status replicates;
     assignedSimulations := 0;
     runningReplicates := [];
     noopLoopCycles := 0 |}.

(** Line 315: [noopLoopCycles++]. *)
Definition ticked (s : LoopState) : LoopState :=
  {| simulationStatusTable := simulationStatusTable s;
     assignedSimulations := assignedSimulations s;
     runningReplicates := runningReplicates s;
     noopLoopCycles := wrap_ull (noopLoopCycles s + 1) |}.

(** Lines 334-336, after the runner of [r] was erased from the list and
    [rest] remains. *)
Definition completed (s : LoopState) (r : Z) (rest : list Runner) : LoopState :=
  {| simulationStatusTable := <[r := 2]> (simulationStatusTable s);
     assignedSimulations := wrap_int (assignedSimulations s - 1);
     runningReplicates := rest;
     noopLoopCycles := 0 |}.

(** Lines 366-369, [runner] being what [startReplicate] returned. *)
Definition started (s : LoopState) (replicate : Z) (runner : Runner)
    : LoopState :=
  {| simulationStatusTable := <[replicate := 1]> (simulationStatusTable s);
     assignedSimulations := wrap_int (assignedSimulations s + 1);
     runningReplicates := runningReplicates s ++ [runner];
     noopLoopCycles := noopLoopCycles s |}.

(** The state after reads of the status table left it as [tbl]. *)
Definition with_table (s : LoopState) (tbl : gmap Z Z) : LoopState :=
  {| simulationStatusTable := tbl;
     assignedSimulations := assignedSimulations s;
     runningReplicates := runningReplicates s;
     noopLoopCycles := noopLoopCycles s |}.

(** [popNextFinishedReplicate]: the first runner of the list that reports
    finished is erased from the list and returned; [None] is [NULL]. *)
Fixpoint popNextFinishedReplicate (finished : Runner → bool)
    (runningReplicates : list Runner) : option (Runner * list Runner) :=
  match runningReplicates with
  | [] => None
  | runner :: rest =>
      if finished runner then Some (runner, rest)
      else match popNextFinishedReplicate finished rest with
           | Some (r, rest') => Some (r, runner :: rest')
           | None => None
           end
  end.

(** [startReplicate]: resources are assigned, the runner is created and
    started, and returned; the three calls are taken to return. *)
Definition startReplicate (replicate : Z) : Runner :=
  {| getReplicate := replicate |}.

(** Lines 346-357: the scan for a simulation to perform. The result is
    [(replicate, allFinished)] and the table after the reads. *)
Fixpoint find_simulation (tbl : gmap Z Z) (its : list Z)
    (replicate : Z) (allFinished : bool) : Z * bool * gmap Z Z :=
  match its with
  | [] => (replicate, allFinished, tbl)
  | it :: rest =>
      let '(v, tbl1) := index tbl it in
      if v =? 0 then (it, false, tbl1)
      else
        let '(v', tbl2) := index tbl1 it in
        find_simulation tbl2 rest replicate
          (if negb (v' =? 2) then false else allFinished)
  end.

(** Lines 390-397: the counts printed while the master sleeps. *)
Fixpoint count_replicates (tbl : gmap Z Z) (its : list Z)
    (replicatesRunning replicatesRemaining : Z) : Z * Z * gmap Z Z :=
  match its with
  | [] => (replicatesRunning, replicatesRemaining, tbl)
  | it :: rest =>
      let '(v, tbl1) := index tbl it in
      if v =? 0 then
        count_replicates tbl1 rest replicatesRunning
          (wrap_int (replicatesRemaining + 1))
      else
        let '(v', tbl2) := index tbl1 it in
        if v' =? 1 then
          count_replicates tbl2 rest (wrap_int (replicatesRunning + 1))
            replicatesRemaining
        else count_replicates tbl2 rest replicatesRunning replicatesRemaining
  end.

(** Lines 385-387. *)
Definition sleepTime (noopLoopCycles : Z) : Z :=
  let t := 1000000 in
  let t := if 2000 <? noopLoopCycles then 10000000 else t in
  if 2100 <? noopLoopCycles then 100000000 else t.

Inductive Control : Type :=
  | Continue
  | Break
  | Raise (e : exn).

Inductive LoopExit : Type :=
  | AbortRequested
  | AllFinished
  | Failed (e : exn)
  | StillRunning.

Section Scheduler.

Variable cfg : Config.
Variable env : Env.

(** Lines 319-340: the runners that report finished are reaped one by one.
    Every turn erases one runner, so the number of runners bounds the
    number of turns ([reap_complete] below: the loop ends on [NULL]). *)
Fixpoint reap (turns : nat) (i j : nat) (s : LoopState)
    : list Step * LoopState :=
  match turns with
  | O => ([], s)
  | S turns' =>
      match popNextFinishedReplicate
              (fun r => hasReplicateFinished env i j (getReplicate r))
              (runningReplicates s) with
      | None => ([], s)
      | Some (finishedReplicate, rest) =>
          let r := getReplicate finishedReplicate in
          let s' := completed s r rest in
          let st :=
            {| pre := s;
               event := ReplicateCompleted r (getReplicateExitCode env r);
               post := s' |} in
          let '(steps, s'') := reap turns' i (S j) s' in
          (st :: steps, s'')
      end
  end.

(** Lines 384-404: nothing to start, the master sleeps; every thousandth
    idle cycle from the 3000th on it first prints what it waits for. *)
Definition sleep (i : nat) (s3 : LoopState)
    : Control * list Step * LoopState :=
  let '(progress, s5) :=
    if (3000 <=? noopLoopCycles s3) && (noopLoopCycles s3 mod 1000 =? 0)
    then
      let '(replicatesRunning, replicatesRemaining, tbl') :=
        count_replicates (simulationStatusTable s3) (replicates cfg) 0 0 in
      let s5 := with_table s3 tbl' in
      ([{| pre := s3;
           event := MasterSleeping replicatesRunning replicatesRemaining;
           post := s5 |}], s5)
    else ([], s3) in
  let slept :=
    {| pre := s5; event := Slept (sleepTime (noopLoopCycles s5));
       post := s5 |} in
  if nanosleepFails env i
  then (Raise (LmException "Sleep failed."), progress ++ [slept], s5)
  else (Continue, progress ++ [slept], s5).

(** Lines 314-405: the body of the main loop in iteration [i]. *)
Definition iteration (i : nat) (s : LoopState)
    : Control * list Step * LoopState :=
  let maxSimulations := getMaxSimultaneousReplicates env in
  let s1 := ticked s in
  let tick := {| pre := s; event := LoopIteration; post := s1 |} in
  let '(reaped, s2) := reap (length (runningReplicates s1)) i 0 s1 in
  if 1000 <? noopLoopCycles s2 then
    let '(replicate, allFinished, tbl) :=
      find_simulation (simulationStatusTable s2) (replicates cfg) (-1) true in
    let s3 := with_table s2 tbl in
    if allFinished then (Break, tick :: reaped, s3)
    else if (0 <=? replicate) && (assignedSimulations s3 <? maxSimulations)
    then
      let s4 := started s3 replicate (startReplicate replicate) in
      (Continue,
       tick :: reaped
         ++ [{| pre := s3; event := ReplicateStarted replicate; post := s4 |}],
       s4)
    else
      let '(c, tail, s5) := sleep i s3 in
      (c, tick :: reaped ++ tail, s5)
  else (Continue, tick :: reaped, s2).

(** Lines 312-406: [while (!globalAbort) { ... }], run for at most [fuel]
    iterations from iteration [i]. The last component is the number of
    reads of [globalAbort] made so far. *)
Fixpoint scheduling_loop (fuel : nat) (i : nat) (s : LoopState)
    : LoopExit * list Step * LoopState * nat :=
  match fuel with
  | O => (StillRunning, [], s, i)
  | S fuel' =>
      if globalAbort env i then (AbortRequested, [], s, S i)
      else
        match iteration i s with
        | (Continue, steps, s') =>
            let '(exit, steps', s'', reads) :=
              scheduling_loop fuel' (S i) s' in
            (exit, steps ++ steps', s'', reads)
        | (Break, steps, s') => (AllFinished, steps, s', S i)
        | (Raise e, steps, s') => (Failed e, steps, s', S i)
        end
  end.

(** Lines 408-426: what the master does with the workers on loop exit. *)
Definition shutdown (reads : nat) : list Event :=
  StopCheckpointing
    :: (if globalAbort env reads then [AbortWorkers] else [StopWorkers]).

(** What [executeSimulation] leaves behind. [returned = None] says that the
    loop is still running after [fuel] iterations. The collaborators set up
    before the capacity is asked for may throw ([setupFailure]); the calls
    made afterwards (reading the parameters and the models, starting and
    stopping runners, the shutdown calls) are taken to return, so that
    after the capacity check only a failed [nanosleep] throws here. *)
Record Execution : Type := {
  returned : option (result unit);
  simulationParameters : gmap string string;
  steps : list Step;
  final : LoopState;
  trace : list Event;
}.

Definition executeSimulation (fuel : nat) : Execution :=
  let s0 := init_state (replicates cfg) in
  let stopped e params tr :=
    {| returned := Some (Throw e); simulationParameters := params;
       steps := []; final := s0; trace := tr |} in
  match setupFailure env with
  | Some e => stopped e ∅ []
  | None =>
      let maxSimulations := getMaxSimultaneousReplicates env in
      if maxSimulations =? 0 then
        stopped
          (LmException "Invalid configuration, no replicates can be processed.")
          ∅ []
      else
        match inject_parameters (cmdline_parameters cfg)
                (getParameters env, []) with
        | Throw e => stopped e (getParameters env) []
        | Ok (params, log) =>
            let '(exit, sts, s, reads) := scheduling_loop fuel 0 s0 in
            let tr := log ++ map event sts in
            match exit with
            | StillRunning =>
                {| returned := None; simulationParameters := params;
                   steps := sts; final := s; trace := tr |}
            | Failed e =>
                {| returned := Some (Throw e); simulationParameters := params;
                   steps := sts; final := s; trace := tr |}
            | AbortRequested | AllFinished =>
                {| returned := Some (Ok tt); simulationParameters := params;
                   steps := sts; final := s; trace := tr ++ shutdown reads |}
            end
        end
  end.

(** [main]: the exit code of the process, [None] while [executeSimulation]
    is still running. Each of the four handlers falls through to
    [return -1]. *)
Definition main (fuel : nat) : option Z :=
  let handler (e : exn) : Z :=
    match e with
    | CommandLineArgumentException _ => -1
    | LmException _ => -1
    | StdException _ => -1
    | UnknownException => -1
    end in
  match parseArgumentsFailure env with
  | Some e => Some (handler e)
  | None =>
      if String.eqb (functionOption cfg) "help" then Some 0
      else if String.eqb (functionOption cfg) "version" then Some 0
      else if String.eqb (functionOption cfg) "devices" then Some 0
      else if String.eqb (functionOption cfg) "simulation" then
        match returned (executeSimulation fuel) with
        | None => None
        | Some (Ok _) => Some 0
        | Some (Throw e) => Some (handler e)
        end
      else Some (handler (CommandLineArgumentException "unknown function."))
  end.

End Scheduler.

(** ** Predicates of the statements *)

(** The status of replicate [r] in a table; a missing entry reads 0, as
    [index] does. *)
Definition status (s : LoopState) (r : Z) : Z :=
  default 0 (simulationStatusTable s !! r).

(** The replicate ids whose status is Running (1). *)
Definition running_ids (s : LoopState) : gset Z :=
  dom (filter (fun kv => kv.2 = 1) (simulationStatusTable s)).

(** The first id of [its] whose status is Pending (0). *)
Fixpoint first_pending (s : LoopState) (its : list Z) : option Z :=
  match its with
  | [] => None
  | it :: rest => if status s it =? 0 then Some it else first_pending s rest
  end.

(** One move of a status: it stays, or goes from Pending to Running, or
    from Running to Finished. *)
Definition forward (a b : Z) : Prop :=
  a = b ∨ (a = 0 ∧ b = 1) ∨ (a = 1 ∧ b = 2).

(** Consecutive steps are linked: each starts where the previous one ended. *)
Fixpoint linked (s : LoopState) (sts : list Step) : Prop :=
  match sts with
  | [] => True
  | st :: rest => pre st = s ∧ linked (post st) rest
  end.

(** The state a linked list of steps ends in. *)
Fixpoint end_state (s : LoopState) (sts : list Step) : LoopState :=
  match sts with
  | [] => s
  | st :: rest => end_state (post st) rest
  end.

(** The moves of the loop, one per kind of event: the proofs below go
    through this relation, which every step of [iteration] satisfies
    ([iteration_steps]). *)
Inductive step (cfg : Config) (env : Env)
    : LoopState → Event → LoopState → Prop :=
  | step_iteration s :
      step cfg env s LoopIteration (ticked s)
  | step_completed s l1 runner l2 :
      runningReplicates s = l1 ++ runner :: l2 →
      step cfg env s
        (ReplicateCompleted (getReplicate runner)
           (getReplicateExitCode env (getReplicate runner)))
        (completed s (getReplicate runner) (l1 ++ l2))
  | step_started s r :
      first_pending s (replicates cfg) = Some r →
      0 ≤ r →
      assignedSimulations s < getMaxSimultaneousReplicates env →
      1000 < noopLoopCycles s →
      step cfg env s (ReplicateStarted r) (started s r (startReplicate r))
  | step_sleeping s running remaining :
      step cfg env s (MasterSleeping running remaining) s
  | step_slept s t :
      step cfg env s (Slept t) s.

Definition is_step (cfg : Config) (env : Env) (st : Step) : Prop :=
  step cfg env (pre st) (event st) (post st).

(** What the loop keeps true of the status table and the list of runners:
    the runners stand for distinct replicates, these are exactly the
    replicates with status 1, and every replicate of the list has an entry. *)
Record table_inv (cfg : Config) (s : LoopState) : Prop := {
  inv_nodup : NoDup (getReplicate <$> runningReplicates s);
  inv_running : ∀ r, simulationStatusTable s !! r = Some 1
                     ↔ r ∈ getReplicate <$> runningReplicates s;
  inv_keys : ∀ r, r ∈ replicates cfg →
                  is_Some (simulationStatusTable s !! r);
  inv_dom : ∀ r, is_Some (simulationStatusTable s !! r) →
                 r ∈ replicates cfg;
}.

(** What the loop keeps true of its counter. *)
Record count_inv (env : Env) (s : LoopState) : Prop := {
  inv_count : assignedSimulations s = Z.of_nat (length (runningReplicates s));
  inv_bound : assignedSimulations s ≤ getMaxSimultaneousReplicates env;
}.

(** The counter and the Running replicates stay within the capacity: the
    counter is the number of runners and the number of replicates whose
    status is 1, and it is at most [maxSimulations]. *)
Definition within_capacity (env : Env) (s : LoopState) : Prop :=
  assignedSimulations s ≤ getMaxSimultaneousReplicates env
  ∧ Z.of_nat (length (runningReplicates s)) = assignedSimulations s
  ∧ Z.of_nat (size (running_ids s)) = assignedSimulations s.

(** The configuration with other parameters on the command line. *)
Definition with_cmdline_parameters (cfg : Config) (tokens : list string)
    : Config :=
  {| functionOption := functionOption cfg;
     replicates := replicates cfg;
     cmdline_parameters := tokens |}.

(** The loop iterations since the last reap, [n] of them before [tr]. *)
Fixpoint idle_iterations (n : nat) (tr : list Event) : nat :=
  match tr with
  | [] => n
  | LoopIteration :: rest => idle_iterations (S n) rest
  | ReplicateCompleted _ _ :: rest => idle_iterations O rest
  | _ :: rest => idle_iterations n rest
  end.

(** The environment with other exit codes for the replicates. *)
Definition with_exit_codes (env : Env) (codes : Z → Z) : Env :=
  {| parseArgumentsFailure := parseArgumentsFailure env;
     setupFailure := setupFailure env;
     getMaxSimultaneousReplicates := getMaxSimultaneousReplicates env;
     getParameters := getParameters env;
     abortRaisedAt := abortRaisedAt env;
     hasReplicateFinished := hasReplicateFinished env;
     getReplicateExitCode := codes;
     nanosleepFails := nanosleepFails env |}.

Definition is_completed (e : Event) : bool :=
  match e with ReplicateCompleted _ _ => true | _ => false end.

Definition is_iteration (e : Event) : bool :=
  match e with LoopIteration => true | _ => false end.

(** Events that are neither an iteration nor a reap. *)
Definition neutral (e : Event) : bool :=
  negb (is_iteration e) && negb (is_completed e).

Definition count_events (p : Event → bool) (tr : list Event) : nat :=
  length (filter (fun e => p e = true) tr).

(** ** Three replicates on two slots

    The batch of the specification's scenarios: replicates 0, 1 and 2, two
    of them at a time, the overrides ["badtoken"; "k1=v1"]. The runners
    report finished from iteration 1005 on, with the nonzero exit codes 3,
    4 and 5. *)

Definition batch_cfg : Config :=
  {| functionOption := "simulation";
     replicates := [0; 1; 2];
     cmdline_parameters := ["badtoken"; "k1=v1"] |}.

Definition batch_env : Env :=
  {| parseArgumentsFailure := None;
     setupFailure := None;
     getMaxSimultaneousReplicates := 2;
     getParameters := {["k1" := "file"; "seed" := "7"]};
     abortRaisedAt := None;
     hasReplicateFinished := fun i _ _ => (1005 <=? i)%nat;
     getReplicateExitCode := fun r => r + 3;
     nanosleepFails := fun _ => false |}.

(** The same batch, the abort flag being seen set by read [n]. *)
Definition aborted_env (n : nat) : Env :=
  {| parseArgumentsFailure := None;
     setupFailure := None;
     getMaxSimultaneousReplicates := 2;
     getParameters := {["k1" := "file"; "seed" := "7"]};
     abortRaisedAt := Some n;
     hasReplicateFinished := fun _ _ _ => false;
     getReplicateExitCode := fun r => r + 3;
     nanosleepFails := fun _ => false |}.

(** The same batch on an allocator that has no slot. *)
Definition no_slot_env : Env :=
  {| parseArgumentsFailure := None;
     setupFailure := None;
     getMaxSimultaneousReplicates := 0;
     getParameters := ∅;
     abortRaisedAt := None;
     hasReplicateFinished := fun _ _ _ => false;
     getReplicateExitCode := fun _ => 0;
     nanosleepFails := fun _ => false |}.

(** The events of a trace other than the loop iterations. *)
Definition milestones (tr : list Event) : list Event :=
  filter (fun e => is_iteration e = false) tr.

(** "Once the global abort flag is set, no Pending replicate is ever
    started", for a flag that the signal handler sets at a moment of its
    own: when read [j] of the loop condition finds the flag unset and read
    [j + 1] finds it set, the flag was set in between, that is during
    iteration [j], possibly before that iteration looks for a replicate to
    start. Read for every such moment, the sentence says that no start lies
    in iteration [j] or later: a start has at most [j] loop iterations begun
    before it. *)
Definition no_start_once_flag_set (cfg : Config) (env : Env) (fuel : nat)
    : Prop :=
  ∀ j, globalAbort env j = false → globalAbort env (S j) = true →
  ∀ tr1 r tr2,
    trace (executeSimulation cfg env fuel)
    = tr1 ++ ReplicateStarted r :: tr2 →
    (count_events is_iteration tr1 ≤ j)%nat.

(** ** Predicates of the further properties *)

(** The loop has nothing it may start, and is not done: the first Pending
    replicate of the list is negative or every slot is taken, or no
    replicate is Pending and some replicate is not Finished. *)
Definition nothing_to_start (cfg : Config) (env : Env) (s : LoopState)
    : Prop :=
  match first_pending s (replicates cfg) with
  | Some r => r < 0 ∨ getMaxSimultaneousReplicates env ≤ assignedSimulations s
  | None => ∃ r, r ∈ replicates cfg ∧ status s r ≠ 2
  end.

(** Between iterations, an idle-cycle counter above 1000 shows that some
    replicate is not Finished. *)
Definition waiting (cfg : Config) (s : LoopState) : Prop :=
  0 ≤ noopLoopCycles s
  ∧ (1000 < noopLoopCycles s → ∃ r, r ∈ replicates cfg ∧ status s r ≠ 2).

(** The number of entries of the replicate list whose status is [v]. *)
Definition count_status (s : LoopState) (v : Z) (its : list Z) : Z :=
  Z.of_nat (length (filter (fun r => status s r = v) its)).

Definition is_start_of (r : Z) (e : Event) : bool :=
  match e with
  | ReplicateStarted r' => r' =? r
  | _ => false
  end.

Definition is_completion_of (r : Z) (e : Event) : bool :=
  match e with
  | ReplicateCompleted r' _ => r' =? r
  | _ => false
  end.

(** A status with the numbers of starts and reaps that go with it: Pending
    and never started, Running and started once, or Finished and started
    and reaped once. *)
Definition run_record (st : Z) (starts reaps : nat) : Prop :=
  (st = 0 ∧ starts = 0%nat ∧ reaps = 0%nat)
  ∨ (st = 1 ∧ starts = 1%nat ∧ reaps = 0%nat)
  ∨ (st = 2 ∧ starts = 1%nat ∧ reaps = 1%nat).

(** The replicates started, in the order of their starts. *)
Fixpoint started_ids (tr : list Event) : list Z :=
  match tr with
  | [] => []
  | ReplicateStarted r :: rest => r :: started_ids rest
  | _ :: rest => started_ids rest
  end.

Definition is_progress (e : Event) : bool :=
  match e with
  | MasterSleeping _ _ => true
  | _ => false
  end.


(** The batch without replicates, and a batch whose first replicate id is
    negative. *)
Definition empty_cfg : Config :=
  {| functionOption := "simulation";
     replicates := [];
     cmdline_parameters := [] |}.

Definition negative_cfg : Config :=
  {| functionOption := "simulation";
     replicates := [-1; 0];
     cmdline_parameters := [] |}.

(** *** Facts about [find] and [substr] at the equals sign *)

Lemma find_eq_cons c s :
  find (String c s) "=" =
  if Ascii.eqb c "="%char then Some O else S <$> find s "=".
Proof.
  cbn [find String.prefix].
  destruct (Ascii.ascii_dec "=" c) as [<-|Hne].
  - by destruct s.
  - destruct (Ascii.eqb_spec c "="%char) as [->|_]; [done|reflexivity].
Qed.

Lemma find_eq_spec s :
  find s "=" = None ∧ spec_key_value s = None ∧ has_eq s = false
  ∨ ∃ k v, spec_key_value s = Some (k, v) ∧ has_eq s = true
           ∧ s = assigns k v ∧ has_eq k = false
           ∧ find s "=" = Some (String.length k).
Proof.
  induction s as [|c s IH].
  - by left.
  - rewrite find_eq_cons. unfold has_eq in *. cbn [spec_key_value has_char].
    destruct (Ascii.eqb_spec c "="%char) as [->|Hne].
    + right. exists "", s. by repeat split.
    + destruct IH as [(-> & -> & ->)|(k & v & -> & -> & -> & Hk & ->)].
      * by left.
      * right. exists (String c k), v. repeat split; try done.
        cbn [has_char]. by destruct (Ascii.eqb_spec c "="%char).
Qed.

Lemma append_nil s : "" +:+ s = s.
Proof. reflexivity. Qed.

Lemma append_cons c s t : String c s +:+ t = String c (s +:+ t).
Proof. reflexivity. Qed.

Ltac str_simpl :=
  repeat (rewrite ?append_nil, ?append_cons in *; simpl in * ).

Lemma str_take_app k s : str_take (String.length k) (k +:+ s) = k.
Proof. induction k as [|c k IH]; simpl; [by destruct s|by f_equal]. Qed.

Lemma has_char_app c s t : has_char c (s +:+ t) = has_char c s || has_char c t.
Proof. induction s as [|a s IH]; simpl; [done|]. by destruct (Ascii.eqb a c). Qed.

Lemma assigns_inj k v k' v' :
  has_eq k = false → has_eq k' = false →
  assigns k v = assigns k' v' → k = k' ∧ v = v'.
Proof.
  unfold assigns, has_eq. revert k'.
  induction k as [|c k IH]; intros [|c' k'] Hk Hk' Heq; str_simpl.
  - split; congruence.
  - assert (c' = "="%char) as -> by congruence.
    by rewrite Ascii.eqb_refl in Hk'.
  - assert (c = "="%char) as -> by congruence.
    by rewrite Ascii.eqb_refl in Hk.
  - assert (c = c') as -> by congruence.
    destruct (Ascii.eqb c' "="); [done|].
    destruct (IH k' Hk Hk') as [-> ->]; [congruence|done].
Qed.

Lemma str_drop_past_eq k v :
  str_drop (String.length k + 1) (assigns k v) = Some v.
Proof.
  unfold assigns. induction k as [|c k IH]; str_simpl; [by destruct v|exact IH].
Qed.

Lemma inject_parameter_assigns k v m log :
  has_eq k = false →
  inject_parameter (assigns k v) (m, log)
  = Ok (<[k := v]> m, log ++ [SettingParameter k v]).
Proof.
  intros Hk. unfold inject_parameter.
  destruct (find_eq_spec (assigns k v))
    as [(_ & _ & H)|(k' & v' & Hs & _ & Heq & Hk' & ->)].
  { unfold assigns, has_eq in H. rewrite has_char_app in H.
    str_simpl. by rewrite orb_true_r in H. }
  destruct (assigns_inj _ _ _ _ Hk Hk' Heq) as [<- <-].
  unfold substr. rewrite str_drop_past_eq.
  change (str_drop 0 (assigns k v)) with (Some (assigns k v)).
  unfold assigns. by rewrite str_take_app.
Qed.

Lemma inject_parameter_malformed tok m log :
  has_eq tok = false →
  inject_parameter tok (m, log) = Ok (m, log ++ [MalformedParameter tok]).
Proof.
  intros H. unfold inject_parameter.
  destruct (find_eq_spec tok) as [(-> & _ & _)|(k & v & _ & H' & _)]; [done|].
  congruence.
Qed.

Lemma has_eq_split tok :
  has_eq tok = true → ∃ k v, tok = assigns k v ∧ has_eq k = false.
Proof.
  intros H. destruct (find_eq_spec tok) as [(_ & _ & H')|(k & v & _ & _ & -> & Hk & _)].
  - congruence.
  - by exists k, v.
Qed.

(** *** Machine integers in range *)

Lemma wrap_int_id z : - 2 ^ 31 ≤ z ≤ INT_MAX → wrap_int z = z.
Proof.
  unfold wrap_int, INT_MAX. intros H.
  rewrite Z.mod_small; lia.
Qed.

Lemma wrap_ull_bounds z : 0 ≤ wrap_ull z < 2 ^ 64.
Proof. unfold wrap_ull. apply Z.mod_pos_bound. lia. Qed.

Lemma wrap_ull_le z : 0 ≤ z → wrap_ull z ≤ z.
Proof. unfold wrap_ull. intros H. apply Z.mod_le; lia. Qed.

(** *** The status table *)

Lemma index_present (m : gmap Z Z) k :
  is_Some (m !! k) → index m k = (default 0 (m !! k), m).
Proof. intros [v Hv]. unfold index. by rewrite Hv. Qed.

Lemma init_status_lookup its r :
  init_status its !! r = if decide (r ∈ its) then Some 0 else None.
Proof.
  unfold init_status.
  assert (∀ (tbl : gmap Z Z),
    foldl (fun tbl it => <[it := 0]> tbl) tbl its !! r
    = if decide (r ∈ its) then Some 0 else tbl !! r) as H.
  { induction its as [|it its IH]; intros tbl; simpl foldl.
    - destruct (decide (r ∈ [])) as [Hin|_]; [by apply elem_of_nil in Hin|done].
    - rewrite IH. destruct (decide (r ∈ its)) as [Hin|Hnin].
      + rewrite decide_True; [done|set_solver].
      + destruct (decide (r = it)) as [->|Hne].
        * rewrite decide_True by set_solver. by rewrite lookup_insert_eq.
        * rewrite decide_False by set_solver. by rewrite lookup_insert_ne. }
  rewrite H. by case_decide.
Qed.

Lemma first_pending_split s its r :
  first_pending s its = Some r →
  ∃ l1 l2, its = l1 ++ r :: l2 ∧ status s r = 0
           ∧ Forall (fun x => status s x ≠ 0) l1.
Proof.
  induction its as [|it its IH]; simpl; [done|].
  destruct (Z.eqb_spec (status s it) 0) as [Heq|Hne].
  - intros [= <-]. exists [], its. by repeat split.
  - intros H. destruct (IH H) as (l1 & l2 & -> & Hr & Hl1).
    exists (it :: l1), l2. repeat split; [done|by constructor].
Qed.

Lemma first_pending_elem s its r : first_pending s its = Some r → r ∈ its.
Proof.
  intros H. destruct (first_pending_split _ _ _ H) as (l1 & l2 & -> & _).
  set_solver.
Qed.

Lemma find_simulation_spec s its replicate allFinished :
  (∀ r, r ∈ its → is_Some (simulationStatusTable s !! r)) →
  find_simulation (simulationStatusTable s) its replicate allFinished
  = match first_pending s its with
    | Some r => (r, false, simulationStatusTable s)
    | None => (replicate,
               allFinished && forallb (fun r => status s r =? 2) its,
               simulationStatusTable s)
    end.
Proof.
  revert allFinished.
  induction its as [|it its IH]; intros allFinished Hkeys; simpl.
  - by rewrite andb_true_r.
  - rewrite index_present by (apply Hkeys; set_solver).
    fold (status s it). destruct (status s it =? 0) eqn:H0; [done|].
    rewrite index_present by (apply Hkeys; set_solver).
    fold (status s it). rewrite IH by (intros; apply Hkeys; set_solver).
    destruct (first_pending s its); [done|].
    destruct (status s it =? 2), allFinished; simpl; done.
Qed.

Lemma count_replicates_table (tbl : gmap Z Z) its a b :
  (∀ r, r ∈ its → is_Some (tbl !! r)) →
  (count_replicates tbl its a b).2 = tbl.
Proof.
  revert a b. induction its as [|it its IH]; intros a b Hkeys; simpl; [done|].
  rewrite index_present by (apply Hkeys; set_solver).
  destruct (default 0 (tbl !! it) =? 0).
  - apply IH. intros; apply Hkeys; set_solver.
  - rewrite index_present by (apply Hkeys; set_solver).
    destruct (default 0 (tbl !! it) =? 1);
      apply IH; intros; apply Hkeys; set_solver.
Qed.

Lemma with_table_id s : with_table s (simulationStatusTable s) = s.
Proof. by destruct s. Qed.

(** *** [popNextFinishedReplicate] *)

Lemma popNextFinishedReplicate_Some finished l runner rest :
  popNextFinishedReplicate finished l = Some (runner, rest) →
  ∃ l1 l2, l = l1 ++ runner :: l2 ∧ rest = l1 ++ l2
           ∧ finished runner = true
           ∧ Forall (fun r => finished r = false) l1.
Proof.
  revert runner rest. induction l as [|x l IH]; intros runner rest; simpl.
  - done.
  - destruct (finished x) eqn:Hx.
    + intros [= <- <-]. exists [], l. by repeat split.
    + destruct (popNextFinishedReplicate finished l) as [[r rest']|]; [|done].
      intros [= <- <-].
      destruct (IH r rest' eq_refl) as (l1 & l2 & -> & -> & Hr & Hl1).
      exists (x :: l1), l2. repeat split; [done|by constructor].
Qed.

Lemma popNextFinishedReplicate_None finished l :
  popNextFinishedReplicate finished l = None
  ↔ Forall (fun r => finished r = false) l.
Proof.
  induction l as [|x l IH]; simpl.
  - split; [by constructor|done].
  - destruct (finished x) eqn:Hx.
    + split; [done|]. intros H. apply Forall_cons in H as [H _]. congruence.
    + destruct (popNextFinishedReplicate finished l) as [[r rest']|].
      * split; [done|]. intros H. apply Forall_cons in H as [_ H].
        by apply IH in H.
      * split; [|done]. intros _. constructor; [done|]. by apply IH.
Qed.

(** *** Lists of steps *)

Lemma linked_app s l1 l2 :
  linked s (l1 ++ l2) ↔ linked s l1 ∧ linked (end_state s l1) l2.
Proof.
  revert s. induction l1 as [|st l1 IH]; intros s; simpl.
  - tauto.
  - rewrite IH. tauto.
Qed.

Lemma end_state_app s l1 l2 :
  end_state s (l1 ++ l2) = end_state (end_state s l1) l2.
Proof. revert s. induction l1 as [|st l1 IH]; intros s; simpl; auto. Qed.

Lemma count_events_app p tr1 tr2 :
  count_events p (tr1 ++ tr2) = (count_events p tr1 + count_events p tr2)%nat.
Proof. unfold count_events. by rewrite filter_app, length_app. Qed.

Lemma count_events_cons p e tr :
  count_events p (e :: tr)
  = ((if p e then 1 else 0) + count_events p tr)%nat.
Proof.
  unfold count_events. rewrite filter_cons.
  destruct (p e); case_decide; simpl; congruence.
Qed.

Lemma count_events_none p tr :
  Forall (fun e => p e = false) tr → count_events p tr = O.
Proof.
  induction 1 as [|e tr He _ IH]; [done|].
  rewrite count_events_cons, He, IH. done.
Qed.

Section Loop.

Variable cfg : Config.
Variable env : Env.

Abbreviation maxSimulations := (getMaxSimultaneousReplicates env).

(** Whatever the steps preserve holds all along a linked list of steps. *)
Lemma steps_preserve (P : LoopState → Prop) s sts :
  (∀ s e s', step cfg env s e s' → P s → P s') →
  linked s sts → Forall (is_step cfg env) sts → P s →
  Forall (fun st => P (pre st) ∧ P (post st)) sts ∧ P (end_state s sts).
Proof.
  intros Hstep. revert s.
  induction sts as [|st sts IH]; intros s Hl Hs HP; simpl.
  - by split.
  - destruct Hl as [<- Hl]. apply Forall_cons in Hs as [Hst Hs].
    assert (P (post st)) as HP' by (eapply Hstep; eauto).
    destruct (IH _ Hl Hs HP') as [Hall Hend].
    split; [by constructor|done].
Qed.

Lemma step_table_inv s e s' :
  step cfg env s e s' → table_inv cfg s → table_inv cfg s'.
Proof.
  intros Hstep [Hnd Hrun Hkeys Hdom].
  destruct Hstep as [s|s l1 runner l2 Hl|s r Hfp Hr Hlt Hn|s a b|s t];
    try by constructor.
  - (* reaped *)
    simpl. rewrite Hl in *. rewrite fmap_app, fmap_cons in *.
    apply NoDup_app in Hnd as (Hnd1 & Hnd12 & Hnd2).
    apply NoDup_cons in Hnd2 as [Hr2 Hnd2].
    assert (getReplicate runner ∉ (getReplicate <$> l1)) as Hr1.
    { intros Hin. apply (Hnd12 _ Hin). set_solver. }
    constructor; simpl.
    + rewrite fmap_app. apply NoDup_app. repeat split; [done| |done].
      intros x Hx Hx'. apply (Hnd12 _ Hx). set_solver.
    + intros r. rewrite fmap_app.
      destruct (decide (r = getReplicate runner)) as [->|Hne].
      * rewrite lookup_insert_eq. split; [done|]. set_solver.
      * rewrite lookup_insert_ne by done. rewrite Hrun. set_solver.
    + intros r Hin. destruct (decide (r = getReplicate runner)) as [->|Hne].
      * rewrite lookup_insert_eq. eauto.
      * rewrite lookup_insert_ne by done. auto.
    + intros r. destruct (decide (r = getReplicate runner)) as [->|Hne].
      * intros _. apply Hdom. exists 1. apply Hrun. set_solver.
      * rewrite lookup_insert_ne by done. auto.
  - (* started *)
    assert (r ∈ replicates cfg) as Hin by (by eapply first_pending_elem).
    destruct (first_pending_split _ _ _ Hfp) as (_ & _ & _ & H0 & _).
    assert (r ∉ (getReplicate <$> runningReplicates s)) as Hnr.
    { intros Hr'. apply Hrun in Hr'. unfold status in H0.
      rewrite Hr' in H0. done. }
    constructor; simpl.
    + rewrite fmap_app. apply NoDup_app. repeat split; [done| |].
      * intros x Hx Hx'. simpl in Hx'. set_solver.
      * simpl. apply NoDup_singleton.
    + intros k. rewrite fmap_app. simpl.
      destruct (decide (k = r)) as [->|Hne].
      * rewrite lookup_insert_eq. set_solver.
      * rewrite lookup_insert_ne by done. rewrite Hrun. set_solver.
    + intros k Hk. destruct (decide (k = r)) as [->|Hne].
      * rewrite lookup_insert_eq. eauto.
      * rewrite lookup_insert_ne by done. auto.
    + intros k. destruct (decide (k = r)) as [->|Hne]; [done|].
      rewrite lookup_insert_ne by done. auto.
Qed.

Lemma step_count_inv s e s' :
  0 ≤ maxSimulations ≤ INT_MAX →
  step cfg env s e s' → count_inv env s → count_inv env s'.
Proof.
  intros Hmax Hstep [Hcnt Hbound].
  destruct Hstep as [s|s l1 runner l2 Hl|s r Hfp Hr Hlt Hn|s a b|s t];
    try by constructor.
  - rewrite Hl, length_app in Hcnt. simpl in Hcnt.
    constructor; simpl; rewrite wrap_int_id by (unfold INT_MAX in *; lia);
      rewrite ?length_app; lia.
  - assert (0 ≤ assignedSimulations s) by lia.
    constructor; simpl; rewrite wrap_int_id by (unfold INT_MAX in *; lia);
      rewrite ?length_app; simpl; lia.
Qed.

Lemma init_table_inv : table_inv cfg (init_state (replicates cfg)).
Proof.
  constructor; simpl.
  - apply NoDup_nil_2.
  - intros r. rewrite init_status_lookup. case_decide; set_solver.
  - intros r Hr. rewrite init_status_lookup. rewrite decide_True by done. eauto.
  - intros r. rewrite init_status_lookup. case_decide; [done|].
    by intros [? ?].
Qed.

Lemma init_count_inv :
  0 ≤ maxSimulations → count_inv env (init_state (replicates cfg)).
Proof. intros H. by constructor. Qed.

(** *** The reaping loop *)

Lemma reap_steps turns i j s sts s' :
  reap env turns i j s = (sts, s') →
  linked s sts ∧ s' = end_state s sts
  ∧ Forall (is_step cfg env) sts
  ∧ Forall (fun st => is_completed (event st) = true) sts
  ∧ (sts ≠ [] → noopLoopCycles s' = 0).
Proof.
  revert j s sts s'. induction turns as [|turns IH]; intros j s sts s'; simpl.
  { intros [= <- <-]. by repeat split. }
  destruct (popNextFinishedReplicate _ _) as [[runner rest]|] eqn:Hpop.
  2: { intros [= <- <-]. by repeat split. }
  destruct (reap env turns i (S j) _) as [sts1 s1] eqn:Hreap.
  intros [= <- <-].
  apply popNextFinishedReplicate_Some in Hpop as (l1 & l2 & Hl & -> & _ & _).
  destruct (IH _ _ _ _ Hreap) as (Hlink & -> & Hsteps & Hev & Hnoop).
  repeat split; simpl; try done.
  - constructor; [|done]. unfold is_step. simpl. by constructor.
  - by constructor.
  - intros _. destruct sts1 as [|st sts1]; [done|]. by apply Hnoop.
Qed.

(** The reaping loop stops because [popNextFinishedReplicate] returned
    [NULL], not because the turns ran out. *)
Lemma reap_complete turns i j s sts s' :
  (length (runningReplicates s) ≤ turns)%nat →
  reap env turns i j s = (sts, s') →
  popNextFinishedReplicate
    (fun r => hasReplicateFinished env i (j + length sts) (getReplicate r))
    (runningReplicates s') = None.
Proof.
  revert j s sts s'. induction turns as [|turns IH]; intros j s sts s' Hlen;
    simpl.
  { intros [= <- <-]. destruct (runningReplicates s); [done|simpl in Hlen; lia]. }
  destruct (popNextFinishedReplicate _ _) as [[runner rest]|] eqn:Hpop.
  2: { intros [= <- <-]. by rewrite Nat.add_0_r. }
  destruct (reap env turns i (S j) _) as [sts1 s1] eqn:Hreap.
  intros [= <- <-].
  apply popNextFinishedReplicate_Some in Hpop as (l1 & l2 & Hl & -> & _ & _).
  simpl. replace (j + S (length sts1))%nat with (S j + length sts1)%nat by lia.
  apply (IH _ _ _ _) in Hreap; [done|].
  rewrite Hl in Hlen. simpl. rewrite length_app in *. simpl in Hlen. lia.
Qed.

(** *** One iteration of the main loop *)

Lemma sleep_steps i s c sts s' :
  table_inv cfg s →
  sleep cfg env i s = (c, sts, s') →
  linked s sts ∧ s' = end_state s sts
  ∧ Forall (is_step cfg env) sts
  ∧ count_events is_iteration (event <$> sts) = 0%nat
  ∧ c ≠ Break.
Proof.
  intros Hinv. unfold sleep.
  destruct ((3000 <=? noopLoopCycles s) && (noopLoopCycles s mod 1000 =? 0)).
  - destruct (count_replicates _ _ 0 0) as [[a b] tbl'] eqn:Hcount.
    assert (tbl' = simulationStatusTable s) as ->.
    { rewrite <- (count_replicates_table (simulationStatusTable s)
                    (replicates cfg) 0 0) by apply Hinv.
      by rewrite Hcount. }
    rewrite with_table_id.
    destruct (nanosleepFails env i); intros [= <- <- <-];
      repeat split; try done; repeat constructor.
  - destruct (nanosleepFails env i); intros [= <- <- <-];
      repeat split; try done; repeat constructor.
Qed.

Lemma iteration_steps i s c sts s' :
  table_inv cfg s →
  iteration cfg env i s = (c, sts, s') →
  linked s sts ∧ s' = end_state s sts
  ∧ Forall (is_step cfg env) sts
  ∧ count_events is_iteration (event <$> sts) = 1%nat
  ∧ (c = Break → 1000 < noopLoopCycles s').
Proof.
  intros Hinv. unfold iteration.
  destruct (reap env _ i 0%nat (ticked s)) as [reaped s2] eqn:Hreap.
  destruct (reap_steps _ _ _ _ _ _ Hreap) as (Hlink & -> & Hsteps & Hev & _).
  set (tick := {| pre := s; event := LoopIteration; post := ticked s |}).
  assert (is_step cfg env tick) as Htick by constructor.
  assert (table_inv cfg (ticked s)) as Hinv1.
  { eapply step_table_inv; [exact Htick|done]. }
  destruct (steps_preserve (table_inv cfg) _ _ step_table_inv Hlink Hsteps Hinv1)
    as [_ Hinv2].
  set (s2 := end_state (ticked s) reaped) in *.
  assert (count_events is_iteration (event <$> reaped) = 0%nat) as Hcount.
  { apply count_events_none. apply Forall_fmap.
    eapply Forall_impl; [exact Hev|]. simpl. intros st.
    by destruct (event st). }
  assert (∀ tail c0,
    linked s2 tail → Forall (is_step cfg env) tail →
    count_events is_iteration (event <$> tail) = 0%nat →
    (c0 = Break → 1000 < noopLoopCycles (end_state s2 tail)) →
    linked s (tick :: reaped ++ tail)
    ∧ end_state s2 tail = end_state s (tick :: reaped ++ tail)
    ∧ Forall (is_step cfg env) (tick :: reaped ++ tail)
    ∧ count_events is_iteration (event <$> tick :: reaped ++ tail) = 1%nat
    ∧ (c0 = Break → 1000 < noopLoopCycles (end_state s2 tail))) as Hwrap.
  { intros tail c0 Hl Hs Hc Hb. repeat split; try done.
    - simpl. apply linked_app. done.
    - simpl. by rewrite end_state_app.
    - constructor; [done|]. by apply Forall_app.
    - rewrite fmap_cons, fmap_app, count_events_cons, count_events_app.
      simpl. lia. }
  destruct (1000 <? noopLoopCycles s2) eqn:Hidle.
  2: { intros [= <- <- <-]. rewrite <- (app_nil_r reaped).
       apply (Hwrap [] Continue); by try constructor. }
  apply Z.ltb_lt in Hidle.
  rewrite find_simulation_spec by apply Hinv2.
  destruct (first_pending s2 (replicates cfg)) as [r|] eqn:Hfp.
  - rewrite with_table_id. simpl.
    destruct ((0 <=? r) && (assignedSimulations s2 <? maxSimulations)) eqn:Hg.
    + apply andb_true_iff in Hg as [Hr Hlt].
      apply Z.leb_le in Hr. apply Z.ltb_lt in Hlt.
      intros [= <- <- <-].
      set (st := {| pre := s2; event := ReplicateStarted r;
                    post := started s2 r (startReplicate r) |}).
      apply (Hwrap [st] Continue); try done.
      constructor; [|done]. unfold is_step. simpl. by constructor.
    + destruct (sleep cfg env i s2) as [[c0 tail] s5] eqn:Hsleep.
      destruct (sleep_steps _ _ _ _ _ Hinv2 Hsleep) as (Hl & -> & Hs & Hc & Hnb).
      intros [= <- <- <-]. apply (Hwrap tail c0); try done.
  - simpl. rewrite with_table_id.
    destruct (forallb _ _) eqn:Hall.
    + intros [= <- <- <-]. rewrite <- (app_nil_r reaped).
      apply (Hwrap [] Break); by try constructor.
    + simpl.
      destruct (sleep cfg env i s2) as [[c0 tail] s5] eqn:Hsleep.
      destruct (sleep_steps _ _ _ _ _ Hinv2 Hsleep) as (Hl & -> & Hs & Hc & Hnb).
      intros [= <- <- <-]. apply (Hwrap tail c0); try done.
Qed.

(** *** The main loop *)

Lemma loop_steps fuel i s exit sts s' reads :
  table_inv cfg s →
  scheduling_loop cfg env fuel i s = (exit, sts, s', reads) →
  linked s sts ∧ s' = end_state s sts
  ∧ Forall (is_step cfg env) sts
  ∧ (exit = AllFinished → 1000 < noopLoopCycles s').
Proof.
  revert i s exit sts s' reads.
  induction fuel as [|fuel IH]; intros i s exit sts s' reads Hinv; simpl.
  { intros [= <- <- <- <-]. by repeat split. }
  destruct (globalAbort env i).
  { intros [= <- <- <- <-]. by repeat split. }
  destruct (iteration cfg env i s) as [[c sts1] s1] eqn:Hiter.
  destruct (iteration_steps _ _ _ _ _ Hinv Hiter) as (Hl1 & -> & Hs1 & _ & Hb).
  destruct c as [| |e].
  - destruct (scheduling_loop cfg env fuel (S i) _) as [[[exit2 sts2] s2] reads2]
      eqn:Hloop.
    intros [= <- <- <- <-].
    assert (table_inv cfg (end_state s sts1)) as Hinv1.
    { by apply (steps_preserve (table_inv cfg) s sts1 step_table_inv). }
    destruct (IH _ _ _ _ _ _ Hinv1 Hloop) as (Hl2 & -> & Hs2 & Hfin).
    repeat split; try done.
    + by apply linked_app.
    + by rewrite end_state_app.
    + by apply Forall_app.
  - intros [= <- <- <- <-]. repeat split; try done. intros _. by apply Hb.
  - intros [= <- <- <- <-]. by repeat split.
Qed.

(** The reads of [globalAbort]: one per iteration begun, all of them
    seeing the flag unset, and one more when the loop ends on the flag. *)
Lemma loop_reads fuel i s exit sts s' reads :
  table_inv cfg s →
  scheduling_loop cfg env fuel i s = (exit, sts, s', reads) →
  let n := count_events is_iteration (event <$> sts) in
  (n ≤ fuel)%nat
  ∧ (∀ k, (i ≤ k < i + n)%nat → globalAbort env k = false)
  ∧ match exit with
    | AbortRequested =>
        reads = S (i + n) ∧ globalAbort env (i + n) = true ∧ (n < fuel)%nat
    | StillRunning => reads = (i + n)%nat ∧ n = fuel
    | AllFinished | Failed _ => reads = (i + n)%nat ∧ (1 ≤ n)%nat
    end.
Proof.
  revert i s exit sts s' reads.
  induction fuel as [|fuel IH]; intros i s exit sts s' reads Hinv; simpl.
  { intros [= <- <- <- <-]. simpl.
    change (count_events is_iteration []) with O.
    repeat split; try lia. }
  destruct (globalAbort env i) eqn:Hab.
  { intros [= <- <- <- <-]. simpl.
    change (count_events is_iteration []) with O. rewrite Nat.add_0_r.
    repeat split; try done; lia. }
  destruct (iteration cfg env i s) as [[c sts1] s1] eqn:Hiter.
  destruct (iteration_steps _ _ _ _ _ Hinv Hiter) as (Hl1 & -> & Hs1 & Hc1 & _).
  destruct c as [| |e].
  - destruct (scheduling_loop cfg env fuel (S i) _) as [[[exit2 sts2] s2] reads2]
      eqn:Hloop.
    intros [= <- <- <- <-].
    assert (table_inv cfg (end_state s sts1)) as Hinv1.
    { by apply (steps_preserve (table_inv cfg) s sts1 step_table_inv). }
    specialize (IH _ _ _ _ _ _ Hinv1 Hloop). simpl in IH.
    destruct IH as (Hle & Hno & Hexit).
    rewrite fmap_app, count_events_app, Hc1.
    split; [lia|]. split.
    + intros k Hk. destruct (decide (k = i)) as [->|Hne]; [done|].
      apply Hno. lia.
    + replace (i + (1 + count_events is_iteration (event <$> sts2)))%nat
        with (S i + count_events is_iteration (event <$> sts2))%nat by lia.
      destruct exit2; repeat split; try tauto; lia.
  - intros [= <- <- <- <-]. rewrite Hc1. repeat split; try lia.
    intros k Hk. by replace k with i by lia.
  - intros [= <- <- <- <-]. rewrite Hc1. repeat split; try lia.
    intros k Hk. by replace k with i by lia.
Qed.

(** *** Idle iterations *)

Lemma steps_idle s sts n :
  linked s sts → Forall (is_step cfg env) sts →
  0 ≤ noopLoopCycles s ≤ Z.of_nat n →
  0 ≤ noopLoopCycles (end_state s sts)
    ≤ Z.of_nat (idle_iterations n (event <$> sts)).
Proof.
  revert s n. induction sts as [|st sts IH]; intros s n Hl Hs Hn; simpl.
  - done.
  - destruct Hl as [<- Hl]. apply Forall_cons in Hs as [Hst Hs].
    destruct st as [s0 e s1]. unfold is_step in Hst. simpl in *.
    destruct Hst; simpl; apply IH; simpl; try done.
    pose proof (wrap_ull_bounds (noopLoopCycles s + 1)).
    pose proof (wrap_ull_le (noopLoopCycles s + 1)). lia.
Qed.

End Loop.

Lemma idle_iterations_app n tr1 tr2 :
  idle_iterations n (tr1 ++ tr2) = idle_iterations (idle_iterations n tr1) tr2.
Proof.
  revert n. induction tr1 as [|e tr1 IH]; intros n; simpl; [done|].
  destruct e; apply IH.
Qed.

Lemma idle_iterations_le n tr :
  (idle_iterations n tr ≤ n + count_events is_iteration tr)%nat.
Proof.
  revert n. induction tr as [|e tr IH]; intros n; simpl.
  - lia.
  - rewrite count_events_cons.
    destruct e; simpl; try apply IH.
    + specialize (IH (S n)). lia.
    + specialize (IH O). lia.
Qed.

Lemma idle_iterations_neutral n tr :
  Forall (fun e => neutral e = true) tr → idle_iterations n tr = n.
Proof.
  induction 1 as [|e tr He _ IH]; simpl; [done|].
  destruct e; done.
Qed.

Lemma idle_iterations_after_reap n tr1 r c tr2 :
  (idle_iterations n (tr1 ++ ReplicateCompleted r c :: tr2)
   ≤ count_events is_iteration tr2)%nat.
Proof.
  rewrite idle_iterations_app. simpl.
  pose proof (idle_iterations_le O tr2). lia.
Qed.

(** *** The loop looks at the replicate list only, and never at exit codes *)

Lemma sleep_cfg cfg cfg' env i s :
  replicates cfg = replicates cfg' → sleep cfg env i s = sleep cfg' env i s.
Proof. intros H. unfold sleep. by rewrite H. Qed.

Lemma iteration_cfg cfg cfg' env i s :
  replicates cfg = replicates cfg' →
  iteration cfg env i s = iteration cfg' env i s.
Proof.
  intros H. unfold iteration. rewrite H.
  destruct (reap env _ i 0%nat (ticked s)) as [reaped s2].
  destruct (1000 <? noopLoopCycles s2); [|done].
  destruct (find_simulation _ _ _ _) as [[r af] tbl].
  destruct af; [done|].
  destruct (_ && _); [done|].
  by rewrite (sleep_cfg cfg cfg').
Qed.

Lemma scheduling_loop_cfg cfg cfg' env fuel i s :
  replicates cfg = replicates cfg' →
  scheduling_loop cfg env fuel i s = scheduling_loop cfg' env fuel i s.
Proof.
  intros H. revert i s. induction fuel as [|fuel IH]; intros i s; simpl.
  - done.
  - rewrite (iteration_cfg cfg cfg') by done.
    destruct (globalAbort env i); [done|].
    destruct (iteration cfg' env i s) as [[[| |e] sts] s']; try done.
    by rewrite IH.
Qed.

Lemma reap_exit_codes env codes turns i j s :
  (reap (with_exit_codes env codes) turns i j s).2 = (reap env turns i j s).2.
Proof.
  revert j s. induction turns as [|turns IH]; intros j s; simpl; [done|].
  destruct (popNextFinishedReplicate _ _) as [[runner rest]|]; [|done].
  specialize (IH (S j) (completed s (getReplicate runner) rest)).
  destruct (reap (with_exit_codes env codes) turns i (S j) _) as [sts1 s1].
  destruct (reap env turns i (S j) _) as [sts2 s2].
  done.
Qed.

Lemma sleep_exit_codes cfg env codes i s :
  sleep cfg (with_exit_codes env codes) i s = sleep cfg env i s.
Proof. reflexivity. Qed.

Lemma iteration_exit_codes cfg env codes i s :
  (iteration cfg (with_exit_codes env codes) i s).1.1
  = (iteration cfg env i s).1.1
  ∧ (iteration cfg (with_exit_codes env codes) i s).2
    = (iteration cfg env i s).2.
Proof.
  unfold iteration.
  pose proof (reap_exit_codes env codes
                (length (runningReplicates (ticked s))) i 0 (ticked s)) as H.
  destruct (reap (with_exit_codes env codes) _ i 0%nat (ticked s))
    as [reaped1 s1].
  destruct (reap env _ i 0%nat (ticked s)) as [reaped2 s2].
  simpl in H. subst s1.
  destruct (1000 <? noopLoopCycles s2); [|done].
  destruct (find_simulation _ _ _ _) as [[r af] tbl].
  destruct af; [done|].
  change (getMaxSimultaneousReplicates (with_exit_codes env codes))
    with (getMaxSimultaneousReplicates env).
  destruct (_ && _); [done|].
  rewrite sleep_exit_codes.
  by destruct (sleep cfg env i (with_table s2 tbl)) as [[c tail] s5].
Qed.

Lemma scheduling_loop_exit_codes cfg env codes fuel i s :
  (scheduling_loop cfg (with_exit_codes env codes) fuel i s).1.1.1
  = (scheduling_loop cfg env fuel i s).1.1.1.
Proof.
  revert i s. induction fuel as [|fuel IH]; intros i s; simpl; [done|].
  change (globalAbort (with_exit_codes env codes) i) with (globalAbort env i).
  destruct (globalAbort env i); [done|].
  destruct (iteration_exit_codes cfg env codes i s) as [Hc Hs].
  destruct (iteration cfg (with_exit_codes env codes) i s) as [[c1 sts1] s1].
  destruct (iteration cfg env i s) as [[c2 sts2] s2].
  simpl in Hc, Hs. subst c1 s1.
  destruct c2; try done.
  specialize (IH (S i) s2).
  destruct (scheduling_loop cfg (with_exit_codes env codes) fuel (S i) s2)
    as [[[e1 t1] u1] r1].
  by destruct (scheduling_loop cfg env fuel (S i) s2) as [[[e2 t2] u2] r2].
Qed.

(** *** The injected parameters *)

Lemma spec_key_value_Some tok k v :
  spec_key_value tok = Some (k, v) → tok = assigns k v ∧ has_eq k = false.
Proof.
  intros H. destruct (find_eq_spec tok)
    as [(_ & H' & _)|(k' & v' & H' & _ & -> & Hk & _)]; [congruence|].
  rewrite H in H'. by injection H' as -> ->.
Qed.

Lemma spec_key_value_None tok :
  spec_key_value tok = None ↔ has_eq tok = false.
Proof.
  destruct (find_eq_spec tok) as [(_ & -> & ->)|(k & v & -> & -> & _)];
    split; done.
Qed.

Lemma spec_key_value_assigns k v :
  has_eq k = false → spec_key_value (assigns k v) = Some (k, v).
Proof.
  intros Hk. destruct (spec_key_value (assigns k v)) as [[k' v']|] eqn:H.
  - apply spec_key_value_Some in H as [Heq Hk'].
    by destruct (assigns_inj _ _ _ _ Hk Hk' Heq) as [<- <-].
  - apply spec_key_value_None in H. unfold assigns, has_eq in H.
    rewrite has_char_app in H. str_simpl. by rewrite orb_true_r in H.
Qed.

Lemma inject_parameter_spec tok m log :
  inject_parameter tok (m, log)
  = Ok (match spec_key_value tok with
        | Some (k, v) => <[k := v]> m
        | None => m
        end, log ++ [parameter_event tok]).
Proof.
  unfold parameter_event.
  destruct (spec_key_value tok) as [[k v]|] eqn:H.
  - apply spec_key_value_Some in H as [-> Hk].
    by apply inject_parameter_assigns.
  - apply spec_key_value_None in H. by apply inject_parameter_malformed.
Qed.

Lemma spec_apply_overrides_cons m tok tokens :
  spec_apply_overrides m (tok :: tokens)
  = spec_apply_overrides
      (match spec_key_value tok with
       | Some (k, v) => <[k := v]> m
       | None => m
       end) tokens.
Proof.
  unfold spec_apply_overrides. simpl.
  by destruct (spec_key_value tok) as [[k v]|].
Qed.

Lemma spec_apply_overrides_app m l1 l2 :
  spec_apply_overrides m (l1 ++ l2)
  = spec_apply_overrides (spec_apply_overrides m l1) l2.
Proof.
  revert m. induction l1 as [|tok l1 IH]; intros m; [done|].
  simpl. by rewrite !spec_apply_overrides_cons, IH.
Qed.

Lemma inject_parameters_spec tokens m log :
  inject_parameters tokens (m, log)
  = Ok (spec_apply_overrides m tokens, log ++ (parameter_event <$> tokens)).
Proof.
  revert m log. induction tokens as [|tok tokens IH]; intros m log.
  - simpl. by rewrite app_nil_r.
  - change (inject_parameters (tok :: tokens) (m, log))
      with (bind (inject_parameter tok (m, log)) (inject_parameters tokens)).
    rewrite inject_parameter_spec. unfold bind. rewrite IH.
    rewrite spec_apply_overrides_cons, <- app_assoc. done.
Qed.

Lemma spec_apply_overrides_untouched m tokens k :
  Forall (fun tok => ∀ v, tok ≠ assigns k v) tokens →
  spec_apply_overrides m tokens !! k = m !! k.
Proof.
  intros H. revert m. induction H as [|tok tokens Htok _ IH]; intros m.
  - done.
  - rewrite spec_apply_overrides_cons, IH.
    destruct (spec_key_value tok) as [[k' v']|] eqn:Hkv; [|done].
    apply spec_key_value_Some in Hkv as [-> _].
    apply lookup_insert_ne. intros ->. by apply (Htok v').
Qed.

Lemma spec_apply_overrides_last m l1 k v l2 :
  has_eq k = false →
  Forall (fun tok => ∀ v', tok ≠ assigns k v') l2 →
  spec_apply_overrides m (l1 ++ assigns k v :: l2) !! k = Some v.
Proof.
  intros Hk Hl2.
  rewrite spec_apply_overrides_app, spec_apply_overrides_cons.
  rewrite spec_apply_overrides_untouched by done.
  rewrite spec_key_value_assigns by done. apply lookup_insert_eq.
Qed.

Lemma spec_apply_overrides_skip m l1 tok l2 :
  has_eq tok = false →
  spec_apply_overrides m (l1 ++ tok :: l2) = spec_apply_overrides m (l1 ++ l2).
Proof.
  intros H. rewrite !spec_apply_overrides_app, spec_apply_overrides_cons.
  apply spec_key_value_None in H. by rewrite H.
Qed.

Lemma parameter_event_neutral tokens :
  Forall (fun e => neutral e = true) (parameter_event <$> tokens).
Proof.
  apply Forall_fmap, Forall_forall. intros tok _. unfold parameter_event. simpl.
  by destruct (spec_key_value tok) as [[k v]|].
Qed.

(** *** [executeSimulation] once the setup went through *)

Lemma executeSimulation_run cfg env fuel :
  setupFailure env = None → getMaxSimultaneousReplicates env ≠ 0 →
  executeSimulation cfg env fuel
  = let '(exit, sts, s, reads) :=
      scheduling_loop cfg env fuel 0 (init_state (replicates cfg)) in
    {| returned := match exit with
                   | StillRunning => None
                   | Failed e => Some (Throw e)
                   | AbortRequested | AllFinished => Some (Ok tt)
                   end;
       simulationParameters :=
         spec_apply_overrides (getParameters env) (cmdline_parameters cfg);
       steps := sts;
       final := s;
       trace := (parameter_event <$> cmdline_parameters cfg)
                ++ (event <$> sts)
                ++ match exit with
                   | AbortRequested | AllFinished => shutdown env reads
                   | StillRunning | Failed _ => []
                   end |}.
Proof.
  intros Hsetup Hmax. unfold executeSimulation. rewrite Hsetup.
  destruct (Z.eqb_spec (getMaxSimultaneousReplicates env) 0) as [|_]; [done|].
  rewrite inject_parameters_spec. simpl.
  destruct (scheduling_loop _ _ _ _ _) as [[[exit sts] s] reads].
  destruct exit; simpl; rewrite ?app_nil_r, <- ?app_assoc; done.
Qed.

Lemma executeSimulation_steps cfg env fuel :
  let ex := executeSimulation cfg env fuel in
  linked (init_state (replicates cfg)) (steps ex)
  ∧ final ex = end_state (init_state (replicates cfg)) (steps ex)
  ∧ Forall (is_step cfg env) (steps ex).
Proof.
  simpl. destruct (setupFailure env) as [e|] eqn:Hsetup.
  { unfold executeSimulation. rewrite Hsetup. by repeat split. }
  destruct (Z.eq_dec (getMaxSimultaneousReplicates env) 0) as [H0|Hmax].
  { unfold executeSimulation. rewrite Hsetup, H0. by repeat split. }
  rewrite executeSimulation_run by done.
  destruct (scheduling_loop _ _ _ _ _) as [[[exit sts] s] reads] eqn:Hloop.
  destruct (loop_steps _ _ _ _ _ _ _ _ _ (init_table_inv cfg) Hloop)
    as (Hl & -> & Hs & _).
  by repeat split.
Qed.

(** *** The replicates with status Running *)

Lemma running_ids_size cfg s :
  table_inv cfg s → size (running_ids s) = length (runningReplicates s).
Proof.
  intros [Hnd Hrun _ _].
  assert (running_ids s = list_to_set (getReplicate <$> runningReplicates s))
    as ->.
  { apply set_eq. intros r. unfold running_ids.
    rewrite elem_of_dom, elem_of_list_to_set, <- Hrun.
    split.
    - intros [v Hv]. apply map_lookup_filter_Some in Hv as [Hv Hp].
      simpl in Hp. by subst v.
    - intros Hr. exists 1. by apply map_lookup_filter_Some. }
  rewrite size_list_to_set by done. apply length_fmap.
Qed.

Lemma step_status cfg env s e s' r :
  step cfg env s e s' → table_inv cfg s →
  forward (status s r) (status s' r)
  ∧ (status s' r ≠ status s r →
       (status s r = 0 ∧ status s' r = 1 ∧ e = ReplicateStarted r)
       ∨ (status s r = 1 ∧ status s' r = 2
          ∧ r ∈ getReplicate <$> runningReplicates s
          ∧ ∃ c, e = ReplicateCompleted r c)).
Proof.
  intros Hstep [Hnd Hrun Hkeys Hdom]. unfold status, forward.
  destruct Hstep as [s|s l1 runner l2 Hl|s r' Hfp Hr Hlt Hn|s a b|s t];
    simpl; try (split; [by left|done]).
  - assert (getReplicate runner ∈ getReplicate <$> runningReplicates s) as Hin.
    { rewrite Hl, fmap_app, fmap_cons. set_solver. }
    destruct (decide (r = getReplicate runner)) as [->|Hne].
    + rewrite lookup_insert_eq, (proj2 (Hrun _) Hin). simpl.
      split; [by right; right|]. intros _. right.
      repeat split; [done|by eexists].
    + rewrite lookup_insert_ne by done. split; [by left|done].
  - destruct (first_pending_split _ _ _ Hfp) as (_ & _ & _ & H0 & _).
    unfold status in H0.
    destruct (decide (r = r')) as [->|Hne].
    + rewrite lookup_insert_eq, H0. simpl.
      split; [by right; left|]. intros _. by left.
    + rewrite lookup_insert_ne by done. split; [by left|done].
Qed.

(** ** The scheduling loop: capacity and status moves *)

(** C1. At every point of the scheduling loop the number of Running
    replicates is at most [maxSimulations], the value returned by
    [getMaxSimultaneousReplicates] (a count, from 0 to [INT_MAX]): before
    and after every step the counter [assignedSimulations] is the number of
    runners and the number of replicates with status 1, and is at most
    [maxSimulations]; a replicate is started only when the counter is below
    [maxSimulations], which adds one to it, and every reap takes one off. *)
Theorem running_replicates_within_capacity cfg env fuel :
  0 ≤ getMaxSimultaneousReplicates env ≤ INT_MAX →
  Forall (fun st =>
      within_capacity env (pre st) ∧ within_capacity env (post st)
      ∧ match event st with
        | ReplicateStarted _ =>
            assignedSimulations (pre st) < getMaxSimultaneousReplicates env
            ∧ assignedSimulations (post st) = assignedSimulations (pre st) + 1
        | ReplicateCompleted _ _ =>
            assignedSimulations (post st) = assignedSimulations (pre st) - 1
        | _ => assignedSimulations (post st) = assignedSimulations (pre st)
        end)
    (steps (executeSimulation cfg env fuel)).
Proof.
  intros Hmax.
  destruct (executeSimulation_steps cfg env fuel) as (Hlink & _ & Hsteps).
  set (P s := table_inv cfg s ∧ count_inv env s).
  assert (∀ s e s', step cfg env s e s' → P s → P s') as Hpres.
  { intros s e s' Hst [Ht Hc]. split.
    - by eapply step_table_inv.
    - by eapply step_count_inv. }
  assert (P (init_state (replicates cfg))) as Hinit.
  { split; [apply init_table_inv|apply init_count_inv; lia]. }
  destruct (steps_preserve cfg env P _ _ Hpres Hlink Hsteps Hinit) as [Hall _].
  assert (∀ s, P s → within_capacity env s) as Hcap.
  { intros s [Ht [Hc Hb]]. repeat split; [done|lia|].
    rewrite (running_ids_size cfg) by done. lia. }
  pose proof (conj Hall Hsteps) as H. apply Forall_and in H.
  eapply Forall_impl; [exact H|]. clear H. simpl.
  intros [s e s'] [[Hpre Hpost] Hst]. unfold is_step in Hst. simpl in *.
  repeat split; try by apply Hcap.
  destruct Hpre as [_ [Hc _]], Hpost as [_ [Hc' _]].
  destruct Hst; simpl in *; try done.
  - rewrite Hc'. rewrite Hc, H, !length_app. simpl. lia.
  - split; [done|]. rewrite Hc', Hc, length_app. simpl. lia.
Qed.

(** C2. The status of every replicate moves only forward through
    Pending (0), Running (1), Finished (2): it starts at 0, the steps of the
    loop follow one another, and a step either leaves a status as it is, or
    takes it from 0 to 1 by starting that replicate, or takes it from 1 to 2
    by reaping the runner of that replicate, which was running. *)
Theorem status_moves_forward cfg env fuel :
  let ex := executeSimulation cfg env fuel in
  let s0 := init_state (replicates cfg) in
  (∀ r, status s0 r = 0)
  ∧ linked s0 (steps ex)
  ∧ Forall (fun st => ∀ r,
        forward (status (pre st) r) (status (post st) r)
        ∧ (status (post st) r ≠ status (pre st) r →
             (status (pre st) r = 0 ∧ status (post st) r = 1
              ∧ event st = ReplicateStarted r)
             ∨ (status (pre st) r = 1 ∧ status (post st) r = 2
                ∧ r ∈ getReplicate <$> runningReplicates (pre st)
                ∧ ∃ c, event st = ReplicateCompleted r c)))
      (steps ex).
Proof.
  simpl.
  destruct (executeSimulation_steps cfg env fuel) as (Hlink & _ & Hsteps).
  split; [|split; [done|]].
  - intros r. unfold status. simpl. rewrite init_status_lookup.
    by case_decide.
  - destruct (steps_preserve cfg env (table_inv cfg) _ _
                (step_table_inv cfg env) Hlink Hsteps (init_table_inv cfg))
      as [Hall _].
    pose proof (conj Hall Hsteps) as H. apply Forall_and in H.
    eapply Forall_impl; [exact H|]. clear H. simpl.
    intros st [[Hpre _] Hst] r. by eapply step_status.
Qed.

(** *** The trace of an execution *)

Lemma shutdown_neutral env reads :
  Forall (fun e => neutral e = true) (shutdown env reads).
Proof.
  unfold shutdown. destruct (globalAbort env reads); by repeat constructor.
Qed.

Lemma count_iterations_neutral tr :
  Forall (fun e => neutral e = true) tr → count_events is_iteration tr = O.
Proof.
  intros H. apply count_events_none. eapply Forall_impl; [exact H|].
  intros e. by destruct e.
Qed.

Lemma globalAbort_raised env n k :
  abortRaisedAt env = Some n → globalAbort env k = true ↔ (n ≤ k)%nat.
Proof. intros H. unfold globalAbort. rewrite H. apply Nat.leb_le. Qed.

Lemma globalAbort_never env k :
  abortRaisedAt env = None → globalAbort env k = false.
Proof. intros H. unfold globalAbort. by rewrite H. Qed.

Lemma returned_exit_codes cfg env codes fuel :
  returned (executeSimulation cfg (with_exit_codes env codes) fuel)
  = returned (executeSimulation cfg env fuel).
Proof.
  unfold executeSimulation.
  change (setupFailure (with_exit_codes env codes)) with (setupFailure env).
  change (getMaxSimultaneousReplicates (with_exit_codes env codes))
    with (getMaxSimultaneousReplicates env).
  change (getParameters (with_exit_codes env codes)) with (getParameters env).
  destruct (setupFailure env); [done|].
  destruct (getMaxSimultaneousReplicates env =? 0); [done|].
  rewrite inject_parameters_spec.
  pose proof (scheduling_loop_exit_codes cfg env codes fuel 0
                (init_state (replicates cfg))) as H.
  destruct (scheduling_loop cfg (with_exit_codes env codes) _ _ _)
    as [[[e1 t1] u1] r1].
  destruct (scheduling_loop cfg env _ _ _) as [[[e2 t2] u2] r2].
  simpl in H. subst e1. by destruct e2.
Qed.

(** ** Fatal configuration, exit code, completion *)

(** C4. If [getMaxSimultaneousReplicates] returns 0, [executeSimulation]
    throws before any replicate is started (the loop takes no step and
    nothing is traced), with the invalid-configuration exception when the
    collaborators set up before did not throw themselves, and the process
    exits with the nonzero code -1. *)
Theorem zero_capacity_is_fatal cfg env fuel :
  getMaxSimultaneousReplicates env = 0 →
  parseArgumentsFailure env = None →
  functionOption cfg = "simulation" →
  let ex := executeSimulation cfg env fuel in
  (∃ e, returned ex = Some (Throw e)
        ∧ (setupFailure env = None →
           e = LmException
                 "Invalid configuration, no replicates can be processed."))
  ∧ steps ex = []
  ∧ trace ex = []
  ∧ main cfg env fuel = Some (-1)
  ∧ -1 ≠ 0.
Proof.
  intros Hmax Hparse Hfun. simpl.
  assert (∃ e, executeSimulation cfg env fuel
               = {| returned := Some (Throw e);
                    simulationParameters := ∅; steps := [];
                    final := init_state (replicates cfg); trace := [] |}
               ∧ (setupFailure env = None →
                  e = LmException
                        "Invalid configuration, no replicates can be processed."))
    as (e & Hex & He).
  { unfold executeSimulation. destruct (setupFailure env) as [e|].
    - by exists e.
    - rewrite Hmax. simpl. eauto. }
  unfold main. rewrite Hparse, Hfun, Hex. simpl.
  repeat split; try done.
  - eauto.
  - by destruct e.
Qed.

(** C8. The exit code of the process is 0 whenever [executeSimulation]
    returns without throwing, whatever the exit codes of the replicates are
    (they are printed, and change neither what [executeSimulation] returns
    nor the exit code), and it is -1 whenever an exception escapes the
    setup or the scheduling. *)
Theorem exit_code_ignores_replicate_exit_codes cfg env fuel :
  (∀ e, parseArgumentsFailure env = Some e → main cfg env fuel = Some (-1))
  ∧ (parseArgumentsFailure env = None →
     functionOption cfg = "simulation" →
     match returned (executeSimulation cfg env fuel) with
     | Some (Ok _) => main cfg env fuel = Some 0
     | Some (Throw _) => main cfg env fuel = Some (-1)
     | None => main cfg env fuel = None
     end)
  ∧ (∀ codes,
       returned (executeSimulation cfg (with_exit_codes env codes) fuel)
       = returned (executeSimulation cfg env fuel)
       ∧ main cfg (with_exit_codes env codes) fuel = main cfg env fuel).
Proof.
  repeat split.
  - intros e He. unfold main. rewrite He. by destruct e.
  - intros Hparse Hfun. unfold main. rewrite Hparse, Hfun. simpl.
    destruct (returned (executeSimulation cfg env fuel)) as [[[]|e]|];
      try done.
    by destruct e.
  - apply returned_exit_codes.
  - unfold main.
    change (parseArgumentsFailure (with_exit_codes env codes))
      with (parseArgumentsFailure env).
    by rewrite returned_exit_codes.
Qed.

(** C9. With the abort flag unset, the loop is left through the
    all-finished test only in an iteration whose [noopLoopCycles] exceeds
    1000; a reap resets that counter, so after any reap, the last one
    included, the loop begins at least 1001 further iterations, the last of
    which detects completion: at least 1000 iterations lie between the final
    reap and the iteration that detects completion, which is never the
    iteration of the reap. *)
Theorem completion_detected_after_idle_cycles cfg env fuel :
  abortRaisedAt env = None →
  returned (executeSimulation cfg env fuel) = Some (Ok tt) →
  1000 < noopLoopCycles (final (executeSimulation cfg env fuel))
  ∧ ∀ tr1 r c tr2,
      trace (executeSimulation cfg env fuel)
      = tr1 ++ ReplicateCompleted r c :: tr2 →
      (1001 ≤ count_events is_iteration tr2)%nat.
Proof.
  intros Hflag Hret.
  destruct (setupFailure env) as [e|] eqn:Hsetup.
  { unfold executeSimulation in Hret. by rewrite Hsetup in Hret. }
  destruct (Z.eq_dec (getMaxSimultaneousReplicates env) 0) as [H0|Hmax].
  { unfold executeSimulation in Hret. by rewrite Hsetup, H0 in Hret. }
  rewrite executeSimulation_run in * by done.
  destruct (scheduling_loop _ _ _ _ _) as [[[exit sts] s] reads] eqn:Hloop.
  destruct (loop_reads _ _ _ _ _ _ _ _ _ (init_table_inv cfg) Hloop)
    as (_ & _ & Hexit).
  destruct (loop_steps _ _ _ _ _ _ _ _ _ (init_table_inv cfg) Hloop)
    as (Hlink & -> & Hsteps & Hfin).
  simpl in *.
  destruct exit; try done.
  { destruct Hexit as (_ & Hab & _).
    by rewrite globalAbort_never in Hab. }
  specialize (Hfin eq_refl).
  pose proof (steps_idle cfg env (init_state (replicates cfg)) sts 0
                Hlink Hsteps ltac:(simpl; lia)) as [_ Hidle].
  split; [done|].
  intros tr1 r c tr2 Heq.
  pose proof (idle_iterations_after_reap 0 tr1 r c tr2) as Hle.
  rewrite <- Heq, !idle_iterations_app in Hle.
  rewrite (idle_iterations_neutral _ (parameter_event <$> _)) in Hle
    by apply parameter_event_neutral.
  rewrite (idle_iterations_neutral _ (shutdown env reads)) in Hle
    by apply shutdown_neutral.
  lia.
Qed.

(** ** The simulation parameters *)

(** C6. The final parameter map is the map loaded from the file, overridden
    by each well-formed [key=value] token in argument order: for a key set
    by several tokens the last one gives the value, and a key that no token
    sets keeps its value from the file. *)
Theorem parameters_file_then_overrides cfg env fuel :
  setupFailure env = None → getMaxSimultaneousReplicates env ≠ 0 →
  let file := getParameters env in
  let tokens := cmdline_parameters cfg in
  let params := simulationParameters (executeSimulation cfg env fuel) in
  inject_parameters tokens (file, []) = Ok (params, parameter_event <$> tokens)
  ∧ params = spec_apply_overrides file tokens
  ∧ (∀ l1 k v l2,
       tokens = l1 ++ assigns k v :: l2 → has_eq k = false →
       Forall (fun tok => ∀ v', tok ≠ assigns k v') l2 →
       params !! k = Some v)
  ∧ (∀ k, Forall (fun tok => ∀ v', tok ≠ assigns k v') tokens →
          params !! k = file !! k).
Proof.
  intros Hsetup Hmax. simpl.
  rewrite executeSimulation_run by done.
  destruct (scheduling_loop _ _ _ _ _) as [[[exit sts] s] reads].
  simpl. repeat split.
  - apply inject_parameters_spec.
  - intros l1 k v l2 -> Hk Hl2. by apply spec_apply_overrides_last.
  - intros k Hk. by apply spec_apply_overrides_untouched.
Qed.

(** C7. An override token without an equals sign is skipped with a warning:
    it leaves the parameter map as it is, the injection does not throw, the
    other tokens are applied as if it were not there, and the execution
    returns the same, takes the same steps and hands the same parameters to
    the replicates as without the token. For the overrides
    ["badtoken"; "k1=v1"], [k1] is set to [v1] and the warning is printed. *)
Theorem malformed_override_is_skipped cfg env fuel l1 tok l2 :
  has_eq tok = false →
  let file := getParameters env in
  let ex := executeSimulation
              (with_cmdline_parameters cfg (l1 ++ tok :: l2)) env fuel in
  let ex' := executeSimulation
               (with_cmdline_parameters cfg (l1 ++ l2)) env fuel in
  (∀ m log, inject_parameter tok (m, log)
            = Ok (m, log ++ [MalformedParameter tok]))
  ∧ (∃ m, inject_parameters (l1 ++ tok :: l2) (file, [])
          = Ok (m, (parameter_event <$> l1)
                   ++ MalformedParameter tok :: (parameter_event <$> l2))
          ∧ inject_parameters (l1 ++ l2) (file, [])
            = Ok (m, (parameter_event <$> l1) ++ (parameter_event <$> l2)))
  ∧ returned ex = returned ex'
  ∧ simulationParameters ex = simulationParameters ex'
  ∧ steps ex = steps ex'
  ∧ inject_parameters ["badtoken"; "k1=v1"] (file, [])
    = Ok (<["k1" := "v1"]> file,
          [MalformedParameter "badtoken"; SettingParameter "k1" "v1"]).
Proof.
  intros Htok. cbv zeta.
  split; [intros m log; by apply inject_parameter_malformed|].
  split.
  { exists (spec_apply_overrides (getParameters env) (l1 ++ l2)).
    rewrite !inject_parameters_spec, spec_apply_overrides_skip by done.
    rewrite !fmap_app, fmap_cons. simpl. unfold parameter_event at 2.
    by rewrite (proj2 (spec_key_value_None tok) Htok). }
  split; [|split; [|split]]; [| | |by rewrite inject_parameters_spec].
  all: destruct (setupFailure env) as [e|] eqn:Hsetup;
    [unfold executeSimulation; by rewrite Hsetup|].
  all: destruct (Z.eq_dec (getMaxSimultaneousReplicates env) 0) as [H0|Hmax];
    [unfold executeSimulation; by rewrite Hsetup, H0|].
  all: rewrite !executeSimulation_run by done.
  all: rewrite (scheduling_loop_cfg
                  (with_cmdline_parameters cfg (l1 ++ tok :: l2))
                  (with_cmdline_parameters cfg (l1 ++ l2))) by done.
  all: simpl.
  all: destruct (scheduling_loop _ _ _ _ _) as [[[exit sts] s] reads]; simpl.
  all: try done.
  by apply spec_apply_overrides_skip.
Qed.

(** C10. A token is well-formed as soon as it holds an equals sign, wherever
    it stands: it is split at its first equals sign, so [k=v] with no equals
    sign in [k] sets [k] to [v] ([v] may hold more of them); [k=] sets [k]
    to the empty string and [=v] sets the empty key to [v]; and a token is
    rejected exactly when it holds no equals sign. *)
Theorem override_splits_at_first_equals m log :
  (∀ k v, has_eq k = false →
     inject_parameter (assigns k v) (m, log)
     = Ok (<[k := v]> m, log ++ [SettingParameter k v]))
  ∧ (∀ tok, has_eq tok = true →
       ∃ k v, tok = assigns k v ∧ has_eq k = false)
  ∧ (∀ k, has_eq k = false →
       inject_parameter (k +:+ "=") (m, log)
       = Ok (<[k := ""]> m, log ++ [SettingParameter k ""]))
  ∧ (∀ v, inject_parameter ("=" +:+ v) (m, log)
          = Ok (<["" := v]> m, log ++ [SettingParameter "" v]))
  ∧ (∀ tok, has_eq tok = false
            ↔ inject_parameter tok (m, log)
              = Ok (m, log ++ [MalformedParameter tok])).
Proof.
  repeat split.
  - intros k v Hk. by apply inject_parameter_assigns.
  - apply has_eq_split.
  - intros k Hk. by apply (inject_parameter_assigns k "").
  - intros v. by apply (inject_parameter_assigns "" v).
  - apply inject_parameter_malformed.
  - intros H. destruct (has_eq tok) eqn:Htok; [|done].
    destruct (has_eq_split _ Htok) as (k & v & -> & Hk).
    rewrite inject_parameter_assigns in H by done.
    injection H as _ H. apply app_inv_head in H. done.
Qed.

(** ** The statements at the batch of three replicates *)

Example batch_run :
  let ex := executeSimulation batch_cfg batch_env 3100 in
  returned ex = Some (Ok tt)
  ∧ milestones (trace ex)
    = [MalformedParameter "badtoken"; SettingParameter "k1" "v1";
       ReplicateStarted 0; ReplicateStarted 1;
       Slept 1000000; Slept 1000000; Slept 1000000;
       ReplicateCompleted 0 3; ReplicateCompleted 1 4;
       ReplicateStarted 2; ReplicateCompleted 2 5;
       StopCheckpointing; StopWorkers]
  ∧ count_events is_iteration (trace ex) = 3009%nat
  ∧ main batch_cfg batch_env 3100 = Some 0.
Proof. vm_compute. repeat split. Qed.

Example aborted_run :
  let ex := executeSimulation batch_cfg (aborted_env 1003) 1100 in
  returned ex = Some (Ok tt)
  ∧ milestones (trace ex)
    = [MalformedParameter "badtoken"; SettingParameter "k1" "v1";
       ReplicateStarted 0; ReplicateStarted 1; Slept 1000000;
       StopCheckpointing; AbortWorkers]
  ∧ status (final ex) 2 = 0
  ∧ count_events is_iteration (trace ex) = 1003%nat.
Proof. vm_compute. repeat split. Qed.

Lemma running_replicates_within_capacity_witness :
  0 ≤ getMaxSimultaneousReplicates batch_env ≤ INT_MAX
  ∧ Forall (fun st =>
        within_capacity batch_env (pre st) ∧ within_capacity batch_env (post st)
        ∧ match event st with
          | ReplicateStarted _ =>
              assignedSimulations (pre st)
                < getMaxSimultaneousReplicates batch_env
              ∧ assignedSimulations (post st)
                = assignedSimulations (pre st) + 1
          | ReplicateCompleted _ _ =>
              assignedSimulations (post st) = assignedSimulations (pre st) - 1
          | _ => assignedSimulations (post st) = assignedSimulations (pre st)
          end)
      (steps (executeSimulation batch_cfg batch_env 3100)).
Proof.
  assert (0 ≤ getMaxSimultaneousReplicates batch_env ≤ INT_MAX) as H.
  { vm_compute. split; discriminate. }
  split; [exact H|].
  exact (running_replicates_within_capacity batch_cfg batch_env 3100 H).
Defined.

Lemma completion_detected_after_idle_cycles_witness :
  1000 < noopLoopCycles (final (executeSimulation batch_cfg batch_env 3100))
  ∧ ∀ tr1 r c tr2,
      trace (executeSimulation batch_cfg batch_env 3100)
      = tr1 ++ ReplicateCompleted r c :: tr2 →
      (1001 ≤ count_events is_iteration tr2)%nat.
Proof.
  apply (completion_detected_after_idle_cycles batch_cfg batch_env 3100).
  - reflexivity.
  - vm_compute. reflexivity.
Defined.

Lemma zero_capacity_is_fatal_witness :
  returned (executeSimulation batch_cfg no_slot_env 10)
  = Some (Throw (LmException
                   "Invalid configuration, no replicates can be processed."))
  ∧ steps (executeSimulation batch_cfg no_slot_env 10) = []
  ∧ main batch_cfg no_slot_env 10 = Some (-1).
Proof.
  destruct (zero_capacity_is_fatal batch_cfg no_slot_env 10)
    as ((e & Hret & He) & Hsteps & _ & Hmain & _).
  - reflexivity.
  - reflexivity.
  - reflexivity.
  - rewrite <- (He eq_refl). exact (conj Hret (conj Hsteps Hmain)).
Defined.

Lemma parameters_file_then_overrides_witness :
  simulationParameters (executeSimulation batch_cfg batch_env 5) !! "k1"
  = Some "v1"
  ∧ simulationParameters (executeSimulation batch_cfg batch_env 5) !! "seed"
    = Some "7".
Proof.
  destruct (parameters_file_then_overrides batch_cfg batch_env 5)
    as (_ & _ & Hlast & Hkeep).
  - reflexivity.
  - vm_compute. discriminate.
  - split.
    + apply (Hlast ["badtoken"] "k1" "v1" []).
      * reflexivity.
      * reflexivity.
      * constructor.
    + rewrite (Hkeep "seed"); [reflexivity|].
      repeat constructor; intros v'; vm_compute; discriminate.
Defined.

Lemma malformed_override_is_skipped_witness :
  has_eq "badtoken" = false
  ∧ simulationParameters (executeSimulation batch_cfg batch_env 5)
    = simulationParameters
        (executeSimulation (with_cmdline_parameters batch_cfg ["k1=v1"])
           batch_env 5)
  ∧ inject_parameters ["badtoken"; "k1=v1"] (getParameters batch_env, [])
    = Ok (<["k1" := "v1"]> (getParameters batch_env),
          [MalformedParameter "badtoken"; SettingParameter "k1" "v1"]).
Proof.
  assert (has_eq "badtoken" = false) as H by reflexivity.
  destruct (malformed_override_is_skipped batch_cfg batch_env 5
              [] "badtoken" ["k1=v1"] H)
    as (_ & _ & _ & Hparams & _ & Hexample).
  exact (conj H (conj Hparams Hexample)).
Defined.

Lemma exit_code_ignores_replicate_exit_codes_witness :
  main batch_cfg batch_env 3100 = Some 0
  ∧ main batch_cfg (with_exit_codes batch_env (fun _ => 0)) 3100
    = main batch_cfg batch_env 3100
  ∧ main batch_cfg
      (with_exit_codes (aborted_env 0) (fun r => r + 1)) 1 = Some 0.
Proof.
  destruct (exit_code_ignores_replicate_exit_codes batch_cfg batch_env 3100)
    as (_ & Hmain & Hcodes).
  destruct (exit_code_ignores_replicate_exit_codes batch_cfg
              (with_exit_codes (aborted_env 0) (fun r => r + 1)) 1)
    as (_ & Hmain' & _).
  specialize (Hmain eq_refl eq_refl). specialize (Hmain' eq_refl eq_refl).
  assert (returned (executeSimulation batch_cfg batch_env 3100)
          = Some (Ok tt)) as Hret by (vm_compute; reflexivity).
  rewrite Hret in Hmain.
  exact (conj Hmain (conj (proj2 (Hcodes (fun _ => 0))) Hmain')).
Defined.

Lemma override_splits_at_first_equals_witness :
  inject_parameter "a=b=c" (∅, []) = Ok ({["a" := "b=c"]}, [SettingParameter "a" "b=c"])
  ∧ inject_parameter "k=" (∅, []) = Ok ({["k" := ""]}, [SettingParameter "k" ""])
  ∧ inject_parameter "=v" (∅, []) = Ok ({["" := "v"]}, [SettingParameter "" "v"])
  ∧ inject_parameter "badtoken" (∅, [])
    = Ok (∅, [MalformedParameter "badtoken"]).
Proof.
  destruct (override_splits_at_first_equals ∅ [])
    as (Hsplit & _ & Hkey & Hval & Hnone).
  exact (conj (Hsplit "a" "b=c" eq_refl)
           (conj (Hkey "k" eq_refl)
              (conj (Hval "v") (proj1 (Hnone "badtoken") eq_refl)))).
Defined.

(** * Further properties of the code *)

(** ** [std::string::find] and [std::string::substr] *)

Lemma length_append s t :
  String.length (s +:+ t) = (String.length s + String.length t)%nat.
Proof. induction s as [|c s IH]; str_simpl; [done|]. by rewrite IH. Qed.

Lemma prefix_split pat s :
  String.prefix pat s = true ↔ ∃ t, s = pat +:+ t.
Proof.
  revert s. induction pat as [|c pat IH]; intros s.
  - split; [intros _; by exists s|]. intros _. by destruct s.
  - destruct s as [|d s]; simpl.
    + split; [done|]. intros [t Ht]. str_simpl. done.
    + destruct (Ascii.ascii_dec c d) as [->|Hne].
      * rewrite IH. split; intros [t Ht]; exists t; str_simpl; congruence.
      * split; [done|]. intros [t Ht]. str_simpl. congruence.
Qed.

(** X1. [find] returns the position of the first occurrence of the pattern:
    the string reads [a ++ pat ++ b] with [a] of the returned length, no
    occurrence starts earlier, and [npos] is returned exactly when the
    pattern does not occur (the empty pattern occurs at 0). *)
Theorem find_first_occurrence s pat :
  match find s pat with
  | Some n =>
      (∃ a b, s = a +:+ pat +:+ b ∧ String.length a = n)
      ∧ ∀ a' b', s = a' +:+ pat +:+ b' → (n ≤ String.length a')%nat
  | None => ∀ a b, s ≠ a +:+ pat +:+ b
  end.
Proof.
  induction s as [|c s IH]; cbn [find].
  - destruct (String.prefix pat "") eqn:Hp.
    + apply prefix_split in Hp as [t Ht]. split; [|intros; lia].
      by exists "", t.
    + intros a b Heq. destruct a as [|d a];
        [rewrite append_nil in Heq|by rewrite append_cons in Heq].
      assert (String.prefix pat "" = true) as Hp'
        by (apply prefix_split; by exists b).
      congruence.
  - destruct (String.prefix pat (String c s)) eqn:Hp.
    + apply prefix_split in Hp as [t Ht]. split; [|intros; lia].
      by exists "", t.
    + assert (∀ a b, String c s = a +:+ pat +:+ b →
                ∃ a', a = String c a' ∧ s = a' +:+ pat +:+ b) as Hcons.
      { intros a b Heq. destruct a as [|d a].
        - rewrite append_nil in Heq.
          assert (String.prefix pat (String c s) = true) as Hp'
            by (apply prefix_split; by exists b).
          congruence.
        - rewrite append_cons in Heq. exists a. split; congruence. }
      destruct (find s pat) as [n|]; simpl.
      * destruct IH as [(a & b & -> & <-) Hmin]. split.
        -- by exists (String c a), b.
        -- intros a' b' Heq. destruct (Hcons _ _ Heq) as (a'' & -> & Hs).
           simpl. apply Hmin in Hs. lia.
      * intros a b Heq. destruct (Hcons _ _ Heq) as (a' & -> & Hs).
        by apply IH in Hs.
Qed.

Lemma str_drop_split pos s :
  match str_drop pos s with
  | Some t => ∃ a, s = a +:+ t ∧ String.length a = pos
  | None => (String.length s < pos)%nat
  end.
Proof.
  revert s. induction pos as [|pos IH]; intros s; simpl.
  - by exists "".
  - destruct s as [|c s]; simpl; [lia|].
    specialize (IH s). destruct (str_drop pos s) as [t|]; [|lia].
    destruct IH as (a & -> & <-). by exists (String c a).
Qed.

Lemma str_take_split n t :
  ∃ b, t = str_take n t +:+ b
       ∧ String.length (str_take n t) = Nat.min n (String.length t).
Proof.
  revert t. induction n as [|n IH]; intros t; simpl.
  - by exists t.
  - destruct t as [|c t]; simpl; [by exists ""|].
    destruct (IH t) as (b & Hb & Hlen). exists b. str_simpl.
    split; [congruence|lia].
Qed.

(** X2. [substr] throws exactly when the position is past the end of the
    string, and what it throws is a [std::exception] (the
    [std::out_of_range] of the library, whatever its text); otherwise it
    returns the piece that starts at the position, cut to the requested
    length or to the end of the string, whichever comes first; a position
    equal to the length gives the empty string. *)
Theorem substr_bounds s pos len :
  match substr s pos len with
  | Throw e => (String.length s < pos)%nat ∧ ∃ what, e = StdException what
  | Ok r =>
      (pos ≤ String.length s)%nat
      ∧ (∃ a b, s = a +:+ r +:+ b ∧ String.length a = pos
                ∧ (len = None → b = ""))
      ∧ String.length r
        = match len with
          | Some n => Nat.min n (String.length s - pos)
          | None => (String.length s - pos)%nat
          end
  end.
Proof.
  unfold substr. pose proof (str_drop_split pos s) as H.
  destruct (str_drop pos s) as [t|]; [|by eauto].
  destruct H as (a & -> & <-). rewrite length_append.
  replace (String.length a + String.length t - String.length a)%nat
    with (String.length t) by lia.
  split; [lia|]. destruct len as [n|].
  - destruct (str_take_split n t) as (b & Hb & Hlen). split; [|done].
    exists a, b. by rewrite <- Hb.
  - split; [|done]. exists a, "". repeat split.
    assert (t +:+ "" = t) as ->; [|done].
    clear. induction t as [|c t IH]; [done|]. rewrite append_cons. congruence.
Qed.

(** ** The injection loop as a whole *)

Lemma spec_apply_overrides_dom m tokens :
  dom m ⊆ dom (spec_apply_overrides m tokens).
Proof.
  revert m. induction tokens as [|tok tokens IH]; intros m; [done|].
  rewrite spec_apply_overrides_cons. etrans; [|apply IH].
  destruct (spec_key_value tok) as [[k v]|]; [|done].
  rewrite dom_insert. set_solver.
Qed.

(** X3. The injection of the command-line parameters never throws, whatever
    the tokens are ([substr] is always called within bounds); it prints
    exactly one line per token, a setting whose key holds no equals sign or
    a warning for a token that holds none; it removes no key of the map; and
    injecting [l1 ++ l2] is injecting [l1] and then [l2]. *)
Theorem injection_never_throws tokens m log :
  ∃ m' log',
    inject_parameters tokens (m, log) = Ok (m', log ++ log')
    ∧ length log' = length tokens
    ∧ Forall (fun e => match e with
                       | SettingParameter k _ => has_eq k = false
                       | MalformedParameter t => has_eq t = false
                       | _ => False
                       end) log'
    ∧ dom m ⊆ dom m'
    ∧ ∀ l2, inject_parameters (tokens ++ l2) (m, log)
            = inject_parameters l2 (m', log ++ log').
Proof.
  exists (spec_apply_overrides m tokens), (parameter_event <$> tokens).
  split; [apply inject_parameters_spec|].
  split; [apply length_fmap|].
  split; [|split; [apply spec_apply_overrides_dom|]].
  - apply Forall_fmap, Forall_forall. intros tok _. unfold parameter_event.
    simpl. destruct (spec_key_value tok) as [[k v]|] eqn:Hkv.
    + by apply spec_key_value_Some in Hkv as [_ Hk].
    + by apply spec_key_value_None.
  - intros l2. rewrite !inject_parameters_spec.
    by rewrite spec_apply_overrides_app, fmap_app, app_assoc.
Qed.

(** ** [popNextFinishedReplicate] and the reaping loop *)

(** X4. [popNextFinishedReplicate] returns the first runner of the list, in
    list order, that reports finished, and erases this one runner, keeping
    the others in their order; it returns [NULL] exactly when no runner of
    the list reports finished. *)
Theorem pop_returns_first_finished finished l :
  match popNextFinishedReplicate finished l with
  | Some (runner, rest) =>
      ∃ l1 l2, l = l1 ++ runner :: l2 ∧ rest = l1 ++ l2
               ∧ finished runner = true
               ∧ Forall (fun r => finished r = false) l1
  | None => Forall (fun r => finished r = false) l
  end.
Proof.
  destruct (popNextFinishedReplicate finished l) as [[runner rest]|] eqn:H.
  - by apply popNextFinishedReplicate_Some.
  - by apply popNextFinishedReplicate_None.
Qed.

Lemma reap_length env turns i j s :
  (length (reap env turns i j s).1
   + length (runningReplicates (reap env turns i j s).2)
   = length (runningReplicates s))%nat.
Proof.
  revert j s. induction turns as [|turns IH]; intros j s; simpl; [done|].
  destruct (popNextFinishedReplicate _ _) as [[runner rest]|] eqn:Hpop;
    [|done].
  apply popNextFinishedReplicate_Some in Hpop as (l1 & l2 & Hl & -> & _ & _).
  specialize (IH (S j) (completed s (getReplicate runner) (l1 ++ l2))).
  destruct (reap env turns i (S j) _) as [sts1 s1]. simpl in *.
  rewrite Hl, !length_app in *. simpl. lia.
Qed.

(** X5. The reaping loop of an iteration ends because
    [popNextFinishedReplicate] returned [NULL], never for lack of turns: the
    runners reaped and the runners left add up to the runners there were,
    and at the last poll none of the runners left reports finished. *)
Theorem reap_ends_on_null env i j s :
  let r := reap env (length (runningReplicates s)) i j s in
  (length r.1 + length (runningReplicates r.2)
   = length (runningReplicates s))%nat
  ∧ popNextFinishedReplicate
      (fun x => hasReplicateFinished env i (j + length r.1) (getReplicate x))
      (runningReplicates r.2) = None.
Proof.
  simpl. split; [apply reap_length|].
  destruct (reap env _ i j s) as [sts s'] eqn:H. simpl.
  by apply (reap_complete env (length (runningReplicates s)) i j s sts s').
Qed.



(** X7. The sleep of the master backs off in three steps and never
    shortens as the idle cycles grow: 1 ms up to 2000 cycles, 10 ms up to
    2100, 100 ms beyond; it is always a valid number of nanoseconds, below
    one second. *)
Theorem sleep_time_backoff n m :
  (1000000 ≤ sleepTime n < 1000000000)
  ∧ (n ≤ m → sleepTime n ≤ sleepTime m)
  ∧ (sleepTime n = 1000000 ↔ n ≤ 2000)
  ∧ (sleepTime n = 10000000 ↔ 2000 < n ≤ 2100)
  ∧ (sleepTime n = 100000000 ↔ 2100 < n).
Proof.
  unfold sleepTime.
  destruct (Z.ltb_spec 2000 n), (Z.ltb_spec 2100 n),
    (Z.ltb_spec 2000 m), (Z.ltb_spec 2100 m); lia.
Qed.

(** ** The shape of one iteration *)

Lemma count_status_cons s v it its :
  count_status s v (it :: its)
  = (if decide (status s it = v) then 1 else 0) + count_status s v its.
Proof.
  unfold count_status. rewrite filter_cons.
  case_decide; simpl length; lia.
Qed.

Lemma count_status_bounds s v its :
  0 ≤ count_status s v its ≤ Z.of_nat (length its).
Proof.
  induction its as [|it its IH]; [done|].
  rewrite count_status_cons. simpl length. case_decide; lia.
Qed.

Ltac pair_lia :=
  repeat match goal with |- (_, _) = (_, _) => f_equal end;
  try done; lia.

Lemma count_replicates_spec s its a b :
  (∀ r, r ∈ its → is_Some (simulationStatusTable s !! r)) →
  0 ≤ a → 0 ≤ b →
  a + Z.of_nat (length its) ≤ INT_MAX →
  b + Z.of_nat (length its) ≤ INT_MAX →
  count_replicates (simulationStatusTable s) its a b
  = (a + count_status s 1 its, b + count_status s 0 its,
     simulationStatusTable s).
Proof.
  revert a b. induction its as [|it its IH]; intros a b Hkeys Ha Hb Hla Hlb.
  - simpl. unfold count_status. simpl. by rewrite !Z.add_0_r.
  - simpl count_replicates. simpl length in *.
    rewrite !count_status_cons.
    rewrite index_present by (apply Hkeys; set_solver).
    fold (status s it).
    assert (∀ r, r ∈ its → is_Some (simulationStatusTable s !! r)) as Hkeys'
      by (intros; apply Hkeys; set_solver).
    destruct (Z.eqb_spec (status s it) 0) as [H0|H0].
    + rewrite wrap_int_id by (unfold INT_MAX in *; lia).
      rewrite IH by (try done; lia).
      rewrite decide_False by lia. rewrite decide_True by done.
      pair_lia.
    + rewrite index_present by (apply Hkeys; set_solver).
      fold (status s it).
      destruct (Z.eqb_spec (status s it) 1) as [H1|H1].
      * rewrite wrap_int_id by (unfold INT_MAX in *; lia).
        rewrite IH by (try done; lia).
        rewrite decide_True by done. rewrite decide_False by done.
        pair_lia.
      * rewrite IH by (try done; lia).
        rewrite !decide_False by done. pair_lia.
Qed.

Lemma sleep_shape cfg env i s :
  table_inv cfg s →
  ∃ progress,
    sleep cfg env i s
    = (if nanosleepFails env i
       then Raise (LmException "Sleep failed.") else Continue,
       progress
         ++ [{| pre := s; event := Slept (sleepTime (noopLoopCycles s));
                post := s |}],
       s)
    ∧ (progress = []
       ∨ (3000 ≤ noopLoopCycles s ∧ noopLoopCycles s mod 1000 = 0
          ∧ progress
            = [{| pre := s;
                  event :=
                    MasterSleeping
                      (count_replicates (simulationStatusTable s)
                         (replicates cfg) 0 0).1.1
                      (count_replicates (simulationStatusTable s)
                         (replicates cfg) 0 0).1.2;
                  post := s |}])).
Proof.
  intros Hinv. unfold sleep.
  destruct ((3000 <=? noopLoopCycles s) && (noopLoopCycles s mod 1000 =? 0))
    eqn:Hcond.
  - apply andb_true_iff in Hcond as [H1 H2].
    apply Z.leb_le in H1. apply Z.eqb_eq in H2.
    pose proof (count_replicates_table (simulationStatusTable s)
                  (replicates cfg) 0 0 (inv_keys _ _ Hinv)) as Htbl.
    destruct (count_replicates _ _ 0 0) as [[a b] tbl'] eqn:Hcount.
    simpl in Htbl. subst tbl'. rewrite with_table_id.
    eexists. split; [by destruct (nanosleepFails env i)|]. right. done.
  - exists []. split; [by destruct (nanosleepFails env i)|]. by left.
Qed.

Lemma first_pending_none s its :
  first_pending s its = None ↔ Forall (fun r => status s r ≠ 0) its.
Proof.
  induction its as [|it its IH]; simpl.
  - split; [by constructor|done].
  - destruct (Z.eqb_spec (status s it) 0) as [H0|H0].
    + split; [done|]. intros H. by apply Forall_cons in H as [H _].
    + rewrite IH. split; [by constructor|].
      intros H. by apply Forall_cons in H as [_ H].
Qed.

(** What an iteration does, case by case. *)
Lemma iteration_shape cfg env i s c sts s' :
  table_inv cfg s →
  iteration cfg env i s = (c, sts, s') →
  let tick := {| pre := s; event := LoopIteration; post := ticked s |} in
  let r := reap env (length (runningReplicates s)) i 0 (ticked s) in
  (r.1 ≠ [] ∧ sts = tick :: r.1 ∧ c = Continue ∧ s' = r.2
   ∧ noopLoopCycles s' = 0)
  ∨ (r.1 = [] ∧
     ((noopLoopCycles (ticked s) ≤ 1000
       ∧ sts = [tick] ∧ c = Continue ∧ s' = ticked s)
      ∨ (1000 < noopLoopCycles (ticked s)
         ∧ Forall (fun x => status (ticked s) x = 2) (replicates cfg)
         ∧ sts = [tick] ∧ c = Break ∧ s' = ticked s)
      ∨ (1000 < noopLoopCycles (ticked s)
         ∧ ∃ x, first_pending (ticked s) (replicates cfg) = Some x
                ∧ 0 ≤ x
                ∧ assignedSimulations s < getMaxSimultaneousReplicates env
                ∧ sts = [tick;
                         {| pre := ticked s; event := ReplicateStarted x;
                            post := started (ticked s) x (startReplicate x) |}]
                ∧ c = Continue
                ∧ s' = started (ticked s) x (startReplicate x))
      ∨ (1000 < noopLoopCycles (ticked s)
         ∧ nothing_to_start cfg env (ticked s)
         ∧ ∃ tail, sleep cfg env i (ticked s) = (c, tail, s')
                   ∧ sts = tick :: tail))).
Proof.
  intros Hinv. unfold iteration. cbv zeta.
  change (runningReplicates (ticked s)) with (runningReplicates s).
  destruct (reap env _ i 0%nat (ticked s)) as [reaped s2] eqn:Hreap.
  destruct (reap_steps cfg env _ _ _ _ _ _ Hreap)
    as (Hlink & -> & Hsteps & _ & Hnoop).
  assert (table_inv cfg (ticked s)) as Hinv1.
  { eapply (step_table_inv cfg env); [apply step_iteration|done]. }
  cbn [fst snd].
  destruct reaped as [|st reaped].
  2: { specialize (Hnoop ltac:(done)). rewrite Hnoop. simpl.
       intros [= <- <- <-]. left. by repeat split. }
  simpl end_state.
  destruct (Z.ltb_spec 1000 (noopLoopCycles (ticked s))) as [Hidle|Hidle].
  2: { intros [= <- <- <-]. right. split; [done|]. left. by repeat split. }
  rewrite find_simulation_spec by apply Hinv1.
  destruct (first_pending (ticked s) (replicates cfg)) as [x|] eqn:Hfp.
  - rewrite with_table_id.
    destruct ((0 <=? x) && (assignedSimulations (ticked s) <? _)) eqn:Hg.
    + apply andb_true_iff in Hg as [Hx Hlt].
      apply Z.leb_le in Hx. apply Z.ltb_lt in Hlt.
      intros [= <- <- <-]. right. split; [done|]. right. right. left.
      split; [done|]. exists x. by repeat split.
    + apply andb_false_iff in Hg.
      destruct (sleep cfg env i (ticked s)) as [[c0 tail] s5] eqn:Hsleep.
      intros [= <- <- <-]. right. split; [done|]. right. right. right.
      split; [done|]. split.
      * unfold nothing_to_start. rewrite Hfp.
        destruct Hg as [Hg|Hg]; [left; apply Z.leb_gt in Hg; lia|].
        right. apply Z.ltb_ge in Hg. done.
      * by exists tail.
  - rewrite with_table_id, andb_true_l.
    destruct (forallb _ _) eqn:Hall.
    + intros [= <- <- <-]. right. split; [done|]. right. left.
      repeat split; try done.
      apply Forall_forall. intros x Hx.
      rewrite forallb_forall in Hall. apply Z.eqb_eq, Hall.
      by apply list_elem_of_In.
    + change ((0 <=? -1) && (assignedSimulations (ticked s) <?
                               getMaxSimultaneousReplicates env))
        with false. cbv iota.
      destruct (sleep cfg env i (ticked s)) as [[c0 tail] s5] eqn:Hsleep.
      intros [= <- <- <-]. right. split; [done|]. right. right. right.
      split; [done|]. split.
      * unfold nothing_to_start. rewrite Hfp.
        apply not_true_iff_false in Hall.
        destruct (decide (Forall (fun x => status (ticked s) x = 2)
                            (replicates cfg))) as [Hf|Hf].
        { exfalso. apply Hall. apply forallb_forall. intros x Hx.
          apply Z.eqb_eq. rewrite Forall_forall in Hf. apply Hf.
          by apply list_elem_of_In. }
        apply not_Forall_Exists in Hf; [|intros x; apply _].
        apply Exists_exists in Hf as (x & Hx & Hne). by exists x.
      * by exists tail.
Qed.

(** ** From one iteration to an execution *)

Lemma loop_steps_Forall cfg env (Q : Step → Prop) :
  (∀ i s c sts s',
     table_inv cfg s → iteration cfg env i s = (c, sts, s') → Forall Q sts) →
  ∀ fuel i s exit sts s' reads,
    table_inv cfg s →
    scheduling_loop cfg env fuel i s = (exit, sts, s', reads) →
    Forall Q sts.
Proof.
  intros HQ. induction fuel as [|fuel IH];
    intros i s exit sts s' reads Hinv; simpl.
  { intros [= <- <- <- <-]. constructor. }
  destruct (globalAbort env i).
  { intros [= <- <- <- <-]. constructor. }
  destruct (iteration cfg env i s) as [[c sts1] s1] eqn:Hiter.
  pose proof (HQ _ _ _ _ _ Hinv Hiter) as HQ1.
  destruct (iteration_steps _ _ _ _ _ _ _ Hinv Hiter) as (Hl1 & -> & Hs1 & _).
  destruct c as [| |e]; try (intros [= <- <- <- <-]; done).
  destruct (scheduling_loop cfg env fuel (S i) _) as [[[exit2 sts2] s2] reads2]
    eqn:Hloop.
  intros [= <- <- <- <-]. apply Forall_app. split; [done|].
  eapply IH; [|exact Hloop].
  by apply (steps_preserve cfg env (table_inv cfg) s sts1
              (step_table_inv cfg env)).
Qed.

Lemma execution_steps_Forall cfg env (Q : Step → Prop) fuel :
  (∀ i s c sts s',
     table_inv cfg s → iteration cfg env i s = (c, sts, s') → Forall Q sts) →
  Forall Q (steps (executeSimulation cfg env fuel)).
Proof.
  intros HQ. destruct (setupFailure env) as [e|] eqn:Hsetup.
  { unfold executeSimulation. rewrite Hsetup. constructor. }
  destruct (Z.eq_dec (getMaxSimultaneousReplicates env) 0) as [H0|Hmax].
  { unfold executeSimulation. rewrite Hsetup, H0. constructor. }
  rewrite executeSimulation_run by done.
  destruct (scheduling_loop _ _ _ _ _) as [[[exit sts] s] reads] eqn:Hloop.
  simpl. eapply loop_steps_Forall; [exact HQ| |exact Hloop].
  apply init_table_inv.
Qed.

Lemma execution_table_inv cfg env fuel :
  table_inv cfg (final (executeSimulation cfg env fuel)).
Proof.
  destruct (executeSimulation_steps cfg env fuel) as (Hlink & -> & Hsteps).
  by apply (steps_preserve cfg env (table_inv cfg) _ _
              (step_table_inv cfg env) Hlink Hsteps (init_table_inv cfg)).
Qed.

Lemma reap_events (cfg : Config) env turns i j s :
  Forall (fun st => is_completed (event st) = true) (reap env turns i j s).1.
Proof.
  destruct (reap env turns i j s) as [sts s'] eqn:H.
  by destruct (reap_steps cfg env _ _ _ _ _ _ H) as (_ & _ & _ & Hev & _).
Qed.

(** Under a property that holds of the tick, of every reap and of every
    start, only the steps of the sleep are left to look at. *)
Lemma iteration_Forall cfg env (Q : Step → Prop) i s c sts s' :
  (∀ st, event st = LoopIteration → Q st) →
  (∀ st, is_completed (event st) = true → Q st) →
  (∀ st r, event st = ReplicateStarted r → Q st) →
  (table_inv cfg (ticked s) →
   1000 < noopLoopCycles (ticked s) →
   nothing_to_start cfg env (ticked s) →
   ∀ c tail s', sleep cfg env i (ticked s) = (c, tail, s') → Forall Q tail) →
  table_inv cfg s →
  iteration cfg env i s = (c, sts, s') → Forall Q sts.
Proof.
  intros Htick Hreap Hstart Hsleep Hinv Hiter.
  destruct (iteration_shape _ _ _ _ _ _ _ Hinv Hiter)
    as [(_ & -> & _)|(_ & [(_ & -> & _)|[(_ & _ & -> & _)
        |[(_ & x & _ & _ & _ & -> & _)|(Hidle & Hblocked & tail & Hs & ->)]]])].
  - constructor; [by apply Htick|].
    eapply Forall_impl; [apply (reap_events cfg)|]. apply Hreap.
  - constructor; [by apply Htick|constructor].
  - constructor; [by apply Htick|constructor].
  - constructor; [by apply Htick|].
    constructor; [by eapply Hstart|constructor].
  - constructor; [by apply Htick|]. eapply Hsleep; try done.
    eapply (step_table_inv cfg env); [apply step_iteration|done].
Qed.

(** ** When the master sleeps, and what it prints *)

(** X8. The master sleeps only when it is idle and blocked: in the state of
    every sleep the idle-cycle counter exceeds 1000 (so nothing was reaped
    in that iteration), nothing may be started (the first Pending replicate
    is negative, or every slot is taken, or no replicate is Pending while
    one is not Finished), the sleep lasts [sleepTime] of the counter, and
    the state is left as it is. *)
Theorem master_sleeps_only_when_blocked cfg env fuel :
  Forall (fun st =>
      match event st with
      | Slept t =>
          post st = pre st
          ∧ 1000 < noopLoopCycles (pre st)
          ∧ t = sleepTime (noopLoopCycles (pre st))
          ∧ nothing_to_start cfg env (pre st)
      | _ => True
      end)
    (steps (executeSimulation cfg env fuel)).
Proof.
  apply execution_steps_Forall. intros i s c sts s'.
  apply iteration_Forall.
  - by intros st ->.
  - intros st H. by destruct (event st).
  - by intros st r ->.
  - intros Hinv1 Hidle Hblocked c0 tail s0 Hsleep.
    destruct (sleep_shape cfg env i (ticked s) Hinv1) as (progress & Heq & Hp).
    rewrite Heq in Hsleep. injection Hsleep as <- <- <-.
    apply Forall_app. split.
    + destruct Hp as [->|(_ & _ & ->)]; repeat constructor.
    + repeat constructor; done.
Qed.

(** X9. The progress line "Master sleeping, waiting for ... replicates to
    finish, ... left to start" is printed only in a sleeping iteration whose
    idle-cycle counter is a multiple of 1000 from 3000 on, and its two
    numbers are the numbers of entries of the replicate list with status 1
    and with status 0 (for a list that an [int] can count). *)
Theorem progress_line_counts cfg env fuel :
  Z.of_nat (length (replicates cfg)) ≤ INT_MAX →
  Forall (fun st =>
      match event st with
      | MasterSleeping replicatesRunning replicatesRemaining =>
          post st = pre st
          ∧ 3000 ≤ noopLoopCycles (pre st)
          ∧ noopLoopCycles (pre st) mod 1000 = 0
          ∧ nothing_to_start cfg env (pre st)
          ∧ replicatesRunning = count_status (pre st) 1 (replicates cfg)
          ∧ replicatesRemaining = count_status (pre st) 0 (replicates cfg)
      | _ => True
      end)
    (steps (executeSimulation cfg env fuel)).
Proof.
  intros Hlen. apply execution_steps_Forall. intros i s c sts s'.
  apply iteration_Forall.
  - by intros st ->.
  - intros st H. by destruct (event st).
  - by intros st r ->.
  - intros Hinv1 Hidle Hblocked c0 tail s0 Hsleep.
    destruct (sleep_shape cfg env i (ticked s) Hinv1) as (progress & Heq & Hp).
    rewrite Heq in Hsleep. injection Hsleep as <- <- <-.
    apply Forall_app. split; [|by repeat constructor].
    destruct Hp as [->|(H1 & H2 & ->)]; [constructor|].
    constructor; [|constructor]. cbn [event pre post].
    rewrite (count_replicates_spec (ticked s)) by (try apply Hinv1; lia).
    cbn [fst snd]. repeat split; try done; lia.
Qed.

Lemma progress_line_counts_witness :
  Forall (fun st =>
      match event st with
      | MasterSleeping replicatesRunning replicatesRemaining =>
          post st = pre st
          ∧ 3000 ≤ noopLoopCycles (pre st)
          ∧ noopLoopCycles (pre st) mod 1000 = 0
          ∧ nothing_to_start batch_cfg (aborted_env 4000) (pre st)
          ∧ replicatesRunning
            = count_status (pre st) 1 (replicates batch_cfg)
          ∧ replicatesRemaining
            = count_status (pre st) 0 (replicates batch_cfg)
      | _ => True
      end)
    (steps (executeSimulation batch_cfg (aborted_env 4000) 3001)).
Proof.
  apply (progress_line_counts batch_cfg (aborted_env 4000) 3001).
  vm_compute. discriminate.
Defined.

Example progress_line_run :
  filter (fun e => is_progress e = true)
    (trace (executeSimulation batch_cfg (aborted_env 4000) 3001))
  = [MasterSleeping 2 1].
Proof. vm_compute. reflexivity. Qed.

(** X10. An iteration in which a runner reports finished at the first poll
    only reaps: it neither looks for a replicate to start, nor sleeps, nor
    leaves the loop, and it ends with the idle-cycle counter at 0. *)
Theorem reaping_iteration_only_reaps cfg env i s :
  table_inv cfg s →
  popNextFinishedReplicate
    (fun x => hasReplicateFinished env i 0 (getReplicate x))
    (runningReplicates s) ≠ None →
  ∃ reaped s',
    iteration cfg env i s
    = (Continue,
       {| pre := s; event := LoopIteration; post := ticked s |} :: reaped, s')
    ∧ reaped ≠ []
    ∧ Forall (fun st => is_completed (event st) = true) reaped
    ∧ noopLoopCycles s' = 0.
Proof.
  intros Hinv Hpop.
  destruct (iteration cfg env i s) as [[c sts] s'] eqn:Hiter.
  pose proof (reap_events cfg env (length (runningReplicates s)) i 0
                (ticked s)) as Hev.
  destruct (iteration_shape _ _ _ _ _ _ _ Hinv Hiter)
    as [(Hne & -> & -> & -> & Hnoop)|(Hnil & _)].
  - eexists _, _. by repeat split.
  - exfalso. destruct (runningReplicates s) as [|x l] eqn:Hl; [done|].
    simpl in Hnil. rewrite Hl in Hnil.
    destruct (popNextFinishedReplicate _ (x :: l)) as [[runner rest]|];
      [|done].
    by destruct (reap env (length l) i 1 _).
Qed.

Lemma reaping_iteration_only_reaps_witness :
  ∃ reaped s',
    iteration batch_cfg batch_env 1005
      (final (executeSimulation batch_cfg batch_env 1005))
    = (Continue,
       {| pre := final (executeSimulation batch_cfg batch_env 1005);
          event := LoopIteration;
          post := ticked (final (executeSimulation batch_cfg batch_env 1005))
       |} :: reaped, s')
    ∧ reaped ≠ []
    ∧ Forall (fun st => is_completed (event st) = true) reaped
    ∧ noopLoopCycles s' = 0.
Proof.
  apply (reaping_iteration_only_reaps batch_cfg batch_env 1005).
  - apply execution_table_inv.
  - vm_compute. discriminate.
Defined.

(** ** Every replicate runs once, in the order of the list *)

Lemma step_start_counts cfg env s e s' r (ns nc : nat) :
  step cfg env s e s' → table_inv cfg s →
  run_record (status s r) ns nc →
  run_record (status s' r)
    (ns + if is_start_of r e then 1 else 0)
    (nc + if is_completion_of r e then 1 else 0).
Proof.
  intros Hstep Hinv HJ. unfold run_record in *.
  destruct Hstep as [s|s l1 runner l2 Hl|s x Hfp Hx Hlt Hn|s a b|s t];
    simpl; rewrite ?Nat.add_0_r; try done.
  - destruct (Z.eqb_spec (getReplicate runner) r) as [<-|Hne].
    + assert (status s (getReplicate runner) = 1) as H1.
      { unfold status. rewrite (proj2 (inv_running _ _ Hinv _)); [done|].
        rewrite Hl, fmap_app, fmap_cons. set_solver. }
      unfold status at 1 2 3. simpl. rewrite lookup_insert_eq. simpl.
      right. right. destruct HJ as [H|[H|H]]; lia.
    + unfold status at 1 2 3. simpl.
      rewrite lookup_insert_ne by done. fold (status s r).
      rewrite !Nat.add_0_r. done.
  - destruct (Z.eqb_spec x r) as [<-|Hne].
    + destruct (first_pending_split _ _ _ Hfp) as (_ & _ & _ & H0 & _).
      unfold status at 1 2 3. simpl. rewrite lookup_insert_eq. simpl.
      right. left. destruct HJ as [H|[H|H]]; lia.
    + unfold status at 1 2 3. simpl.
      rewrite lookup_insert_ne by done. fold (status s r).
      rewrite !Nat.add_0_r. done.
Qed.

Lemma steps_start_counts cfg env r s sts (ns nc : nat) :
  table_inv cfg s → linked s sts → Forall (is_step cfg env) sts →
  run_record (status s r) ns nc →
  run_record (status (end_state s sts) r)
    (ns + count_events (is_start_of r) (event <$> sts))
    (nc + count_events (is_completion_of r) (event <$> sts)).
Proof.
  revert s ns nc. induction sts as [|st sts IH]; intros s ns nc Hinv Hl Hs HJ.
  - simpl. change (count_events _ []) with O. by rewrite !Nat.add_0_r.
  - destruct Hl as [<- Hl]. apply Forall_cons in Hs as [Hst Hs].
    pose proof (step_start_counts _ _ _ _ _ r ns nc Hst Hinv HJ) as HJ'.
    pose proof (step_table_inv _ _ _ _ _ Hst Hinv) as Hinv'.
    specialize (IH _ _ _ Hinv' Hl Hs HJ').
    rewrite fmap_cons, !count_events_cons. simpl end_state.
    rewrite !Nat.add_assoc. exact IH.
Qed.

(** X11. In every execution each replicate is started at most once and
    reaped at most once, the reap after the start: a replicate whose status
    is Pending was never started, one whose status is Running was started
    once and not reaped, one whose status is Finished was started once and
    reaped once; there is no other status. *)
Theorem each_replicate_runs_once cfg env fuel r :
  let ex := executeSimulation cfg env fuel in
  run_record (status (final ex) r)
    (count_events (is_start_of r) (event <$> steps ex))
    (count_events (is_completion_of r) (event <$> steps ex)).
Proof.
  simpl.
  destruct (executeSimulation_steps cfg env fuel) as (Hlink & -> & Hsteps).
  apply (steps_start_counts cfg env r _ _ 0 0 (init_table_inv cfg) Hlink Hsteps).
  left. repeat split. unfold status. simpl. rewrite init_status_lookup.
  by case_decide.
Qed.

Lemma started_ids_app tr1 tr2 :
  started_ids (tr1 ++ tr2) = started_ids tr1 ++ started_ids tr2.
Proof.
  induction tr1 as [|e tr1 IH]; [done|]. destruct e; simpl; by rewrite ?IH.
Qed.

Lemma first_pending_app s l1 l2 :
  Forall (fun r => status s r ≠ 0) l1 →
  first_pending s (l1 ++ l2) = first_pending s l2.
Proof.
  induction 1 as [|x l1 Hx _ IH]; [done|]. simpl.
  by destruct (Z.eqb_spec (status s x) 0).
Qed.

Lemma step_start_order cfg env s e s' done_ids :
  NoDup (replicates cfg) →
  step cfg env s e s' → table_inv cfg s →
  done_ids `prefix_of` replicates cfg →
  (∀ r, r ∈ replicates cfg → status s r ≠ 0 ↔ r ∈ done_ids) →
  (done_ids ++ started_ids [e]) `prefix_of` replicates cfg
  ∧ (∀ r, r ∈ replicates cfg →
          status s' r ≠ 0 ↔ r ∈ done_ids ++ started_ids [e]).
Proof.
  intros Hnd Hstep Hinv Hpre Hiff.
  destruct Hstep as [s|s l1 runner l2 Hl|s x Hfp Hx Hlt Hn|s a b|s t];
    simpl; rewrite ?app_nil_r; try done.
  - split; [done|]. intros r Hr. rewrite <- (Hiff r Hr).
    assert (status s (getReplicate runner) = 1) as H1.
    { unfold status. rewrite (proj2 (inv_running _ _ Hinv _)); [done|].
      rewrite Hl, fmap_app, fmap_cons. set_solver. }
    unfold status at 1. simpl.
    destruct (decide (r = getReplicate runner)) as [->|Hne].
    + rewrite lookup_insert_eq. simpl. split; intros _; lia.
    + by rewrite lookup_insert_ne.
  - destruct Hpre as [k Hk].
    assert (Forall (fun r => status s r ≠ 0) done_ids) as Hdone.
    { apply Forall_forall. intros r Hr. apply Hiff; [|done].
      rewrite Hk. set_solver. }
    rewrite Hk, first_pending_app in Hfp by done.
    destruct k as [|y k]; [done|]. simpl in Hfp.
    assert (status s y = 0) as Hy.
    { destruct (decide (status s y = 0)) as [|Hne]; [done|].
      exfalso. assert (y ∈ done_ids) as Hin.
      { apply Hiff; [rewrite Hk; set_solver|done]. }
      rewrite Hk in Hnd. apply NoDup_app in Hnd as (_ & Hnd & _).
      apply (Hnd y Hin). set_solver. }
    rewrite Hy in Hfp. simpl in Hfp. injection Hfp as ->.
    split.
    + exists k. by rewrite Hk, <- app_assoc.
    + intros r Hr. unfold status at 1. simpl.
      destruct (decide (r = x)) as [->|Hne].
      * rewrite lookup_insert_eq. simpl. split; [set_solver|lia].
      * rewrite lookup_insert_ne by done. fold (status s r).
        rewrite (Hiff r Hr). set_solver.
Qed.

Lemma steps_start_order cfg env s sts done_ids :
  NoDup (replicates cfg) →
  table_inv cfg s → linked s sts → Forall (is_step cfg env) sts →
  done_ids `prefix_of` replicates cfg →
  (∀ r, r ∈ replicates cfg → status s r ≠ 0 ↔ r ∈ done_ids) →
  (done_ids ++ started_ids (event <$> sts)) `prefix_of` replicates cfg.
Proof.
  intros Hnd. revert s done_ids.
  induction sts as [|st sts IH]; intros s done_ids Hinv Hl Hs Hpre Hiff.
  - simpl. by rewrite app_nil_r.
  - destruct Hl as [<- Hl]. apply Forall_cons in Hs as [Hst Hs].
    destruct (step_start_order _ _ _ _ _ _ Hnd Hst Hinv Hpre Hiff)
      as [Hpre' Hiff'].
    pose proof (step_table_inv _ _ _ _ _ Hst Hinv) as Hinv'.
    specialize (IH _ _ Hinv' Hl Hs Hpre' Hiff').
    rewrite fmap_cons.
    change (event st :: (event <$> sts)) with ([event st] ++ (event <$> sts)).
    by rewrite started_ids_app, app_assoc.
Qed.

(** X12. For a replicate list without repeated ids, the replicates are
    started in the order of the list and none is skipped: at any time the
    replicates started so far, in the order of their starts, are the
    beginning of the list. *)
Theorem starts_follow_list_order cfg env fuel :
  NoDup (replicates cfg) →
  started_ids (event <$> steps (executeSimulation cfg env fuel))
    `prefix_of` replicates cfg.
Proof.
  intros Hnd.
  destruct (executeSimulation_steps cfg env fuel) as (Hlink & _ & Hsteps).
  apply (steps_start_order cfg env _ _ [] Hnd (init_table_inv cfg) Hlink Hsteps).
  - by exists (replicates cfg).
  - intros r Hr. unfold status. simpl. rewrite init_status_lookup.
    rewrite decide_True by done. simpl. set_solver.
Qed.

Lemma starts_follow_list_order_witness :
  started_ids (event <$> steps (executeSimulation batch_cfg batch_env 3100))
    `prefix_of` [0; 1; 2].
Proof.
  apply (starts_follow_list_order batch_cfg batch_env 3100).
  repeat (constructor; [set_solver|]). constructor.
Defined.

(** ** How the loop is left *)

Lemma loop_exit_state cfg env fuel i s exit sts s' reads :
  table_inv cfg s →
  scheduling_loop cfg env fuel i s = (exit, sts, s', reads) →
  match exit with
  | AllFinished => Forall (fun x => status s' x = 2) (replicates cfg)
  | Failed e =>
      e = LmException "Sleep failed."
      ∧ (∃ k, nanosleepFails env k = true)
      ∧ ∃ st t, last sts = Some st ∧ event st = Slept t
  | AbortRequested | StillRunning => True
  end.
Proof.
  revert i s exit sts s' reads.
  induction fuel as [|fuel IH]; intros i s exit sts s' reads Hinv; simpl.
  { by intros [= <- <- <- <-]. }
  destruct (globalAbort env i).
  { by intros [= <- <- <- <-]. }
  destruct (iteration cfg env i s) as [[c sts1] s1] eqn:Hiter.
  destruct (iteration_steps _ _ _ _ _ _ _ Hinv Hiter) as (Hl1 & Hs1 & Hst1 & _).
  pose proof (iteration_shape _ _ _ _ _ _ _ Hinv Hiter) as Hshape.
  destruct c as [| |e].
  - destruct (scheduling_loop cfg env fuel (S i) _) as [[[exit2 sts2] s2] reads2]
      eqn:Hloop.
    intros [= <- <- <- <-].
    assert (table_inv cfg s1) as Hinv1.
    { subst s1. by apply (steps_preserve cfg env (table_inv cfg) s sts1
                            (step_table_inv cfg env)). }
    specialize (IH _ _ _ _ _ _ Hinv1 Hloop).
    destruct exit2; try done.
    destruct IH as (-> & Hk & st & t & Hlast & Hev).
    repeat split; try done. exists st, t. split; [|done].
    rewrite last_app, Hlast. done.
  - intros [= <- <- <- <-].
    destruct Hshape as [(_ & _ & [=] & _)|(_ & [(_ & _ & [=] & _)
        |[(_ & Hall & _ & _ & ->)|[(_ & x & _ & _ & _ & _ & [=] & _)
        |(_ & _ & tail & Hsleep & _)]]])]; [done|].
    assert (table_inv cfg (ticked s)) as Hinv1.
    { eapply (step_table_inv cfg env); [apply step_iteration|done]. }
    destruct (sleep_shape cfg env i (ticked s) Hinv1) as (p & Heq & _).
    rewrite Heq in Hsleep. by destruct (nanosleepFails env i).
  - intros [= <- <- <- <-].
    destruct Hshape as [(_ & _ & [=] & _)|(_ & [(_ & _ & [=] & _)
        |[(_ & _ & _ & [=] & _)|[(_ & x & _ & _ & _ & _ & [=] & _)
        |(_ & _ & tail & Hsleep & ->)]]])].
    assert (table_inv cfg (ticked s)) as Hinv1.
    { eapply (step_table_inv cfg env); [apply step_iteration|done]. }
    destruct (sleep_shape cfg env i (ticked s) Hinv1) as (p & Heq & _).
    rewrite Heq in Hsleep.
    destruct (nanosleepFails env i) eqn:Hfail; [|done].
    injection Hsleep as <- <- <-. repeat split; [by exists i|].
    eexists _, _. split.
    { rewrite app_comm_cons. apply last_snoc. }
    reflexivity.
Qed.

Lemma first_pending_table s s' its :
  simulationStatusTable s = simulationStatusTable s' →
  first_pending s its = first_pending s' its.
Proof.
  intros H. induction its as [|it its IH]; [done|]. simpl.
  unfold status. by rewrite H, IH.
Qed.

(** X13. A negative id at the head of the replicate list stalls the batch:
    the scan stops at it, the guard [replicate >= 0] refuses it, and so no
    replicate is ever started or reaped, the later ones included; with the
    abort flag unset, [executeSimulation] never returns normally. *)
Theorem negative_first_replicate_stalls cfg env fuel r rest :
  replicates cfg = r :: rest → r < 0 →
  let ex := executeSimulation cfg env fuel in
  Forall (fun st => match event st with
                    | ReplicateStarted _ | ReplicateCompleted _ _ => False
                    | _ => True
                    end) (steps ex)
  ∧ (abortRaisedAt env = None → returned ex ≠ Some (Ok tt)).
Proof.
  intros Hrep Hr. simpl.
  destruct (executeSimulation_steps cfg env fuel) as (Hlink & Hfinal & Hsteps).
  set (P s := first_pending s (replicates cfg) = Some r
              ∧ runningReplicates s = []).
  assert (∀ s e s', step cfg env s e s' → P s → P s') as Hpres.
  { intros s e s' Hst [Hfp Hrun].
    destruct Hst as [s|s l1 runner l2 Hl|s x Hfp' Hx Hlt Hn|s a b|s t].
    - split; [|done]. rewrite <- Hfp. by apply first_pending_table.
    - rewrite Hl in Hrun. by destruct l1.
    - rewrite Hfp in Hfp'. injection Hfp' as ->. lia.
    - done.
    - done. }
  assert (P (init_state (replicates cfg))) as Hinit.
  { split; [|done]. rewrite Hrep. simpl. unfold status. simpl.
    rewrite init_status_lookup. rewrite decide_True by set_solver. done. }
  destruct (steps_preserve cfg env P _ _ Hpres Hlink Hsteps Hinit)
    as [Hall Hend].
  split.
  - pose proof (conj Hall Hsteps) as H. apply Forall_and in H.
    eapply Forall_impl; [exact H|]. clear H. simpl.
    intros [s e s'] [[[Hfp Hrun] _] Hst]. unfold is_step in Hst. simpl in *.
    destruct Hst as [s|s l1 runner l2 Hl|s x Hfp' Hx Hlt Hn|s a b|s t];
      try done.
    + rewrite Hl in Hrun. by destruct l1.
    + rewrite Hfp in Hfp'. injection Hfp' as ->. lia.
  - intros Hflag Hret.
    destruct (setupFailure env) as [e|] eqn:Hsetup.
    { unfold executeSimulation in Hret. by rewrite Hsetup in Hret. }
    destruct (Z.eq_dec (getMaxSimultaneousReplicates env) 0) as [H0|Hmax].
    { unfold executeSimulation in Hret. by rewrite Hsetup, H0 in Hret. }
    rewrite executeSimulation_run in * by done.
    destruct (scheduling_loop _ _ _ _ _) as [[[exit sts] s] reads] eqn:Hloop.
    pose proof (loop_reads _ _ _ _ _ _ _ _ _ (init_table_inv cfg) Hloop)
      as (_ & _ & Hexit).
    pose proof (loop_exit_state _ _ _ _ _ _ _ _ _ (init_table_inv cfg) Hloop)
      as Hstate.
    simpl in *. destruct exit; try done.
    + destruct Hexit as (_ & Hab & _). by rewrite globalAbort_never in Hab.
    + rewrite <- Hfinal in Hend. destruct Hend as [Hfp _].
      destruct (first_pending_split _ _ _ Hfp) as (l1 & l2 & Heq & H0 & _).
      rewrite Forall_forall in Hstate.
      assert (status s r = 2) as H2 by (apply Hstate; rewrite Heq; set_solver).
      lia.
Qed.

Lemma negative_first_replicate_stalls_witness :
  Forall (fun st => match event st with
                    | ReplicateStarted _ | ReplicateCompleted _ _ => False
                    | _ => True
                    end)
    (steps (executeSimulation negative_cfg batch_env 1100))
  ∧ (abortRaisedAt batch_env = None →
     returned (executeSimulation negative_cfg batch_env 1100)
     ≠ Some (Ok tt)).
Proof.
  apply (negative_first_replicate_stalls negative_cfg batch_env 1100 (-1) [0]).
  - reflexivity.
  - lia.
Defined.

Example negative_first_replicate_run :
  let ex := executeSimulation negative_cfg batch_env 1100 in
  returned ex = None
  ∧ length (milestones (trace ex)) = 100%nat
  ∧ Forall (fun e => e = Slept 1000000) (milestones (trace ex))
  ∧ status (final ex) 0 = 0.
Proof.
  vm_compute. repeat split. apply Forall_forall. intros e He.
  repeat (apply elem_of_cons in He as [->|He]; [reflexivity|]).
  by apply elem_of_nil in He.
Qed.

Lemma all_finished_no_runner cfg s :
  table_inv cfg s →
  Forall (fun x => status s x = 2) (replicates cfg) →
  runningReplicates s = [].
Proof.
  intros Hinv Hall. destruct (runningReplicates s) as [|x l] eqn:Hl; [done|].
  exfalso.
  assert (simulationStatusTable s !! getReplicate x = Some 1) as H1.
  { apply (inv_running _ _ Hinv). rewrite Hl, fmap_cons. set_solver. }
  assert (getReplicate x ∈ replicates cfg) as Hin
    by (apply (inv_dom _ _ Hinv); eauto).
  rewrite Forall_forall in Hall. specialize (Hall _ Hin).
  unfold status in Hall. rewrite H1 in Hall. done.
Qed.

(** X14. With the abort flag unset, a normal return of [executeSimulation]
    means that the whole batch ran: no runner is left, and every replicate
    of the list is Finished, was started exactly once and was reaped exactly
    once. *)
Theorem normal_return_means_batch_done cfg env fuel :
  abortRaisedAt env = None →
  returned (executeSimulation cfg env fuel) = Some (Ok tt) →
  let ex := executeSimulation cfg env fuel in
  runningReplicates (final ex) = []
  ∧ Forall (fun r =>
        status (final ex) r = 2
        ∧ count_events (is_start_of r) (event <$> steps ex) = 1%nat
        ∧ count_events (is_completion_of r) (event <$> steps ex) = 1%nat)
      (replicates cfg).
Proof.
  intros Hflag Hret. simpl.
  assert (Forall (fun x => status (final (executeSimulation cfg env fuel)) x = 2)
            (replicates cfg)) as Hall.
  { destruct (setupFailure env) as [e|] eqn:Hsetup.
    { unfold executeSimulation in Hret. by rewrite Hsetup in Hret. }
    destruct (Z.eq_dec (getMaxSimultaneousReplicates env) 0) as [H0|Hmax].
    { unfold executeSimulation in Hret. by rewrite Hsetup, H0 in Hret. }
    rewrite executeSimulation_run in * by done.
    destruct (scheduling_loop _ _ _ _ _) as [[[exit sts] s] reads] eqn:Hloop.
    pose proof (loop_reads _ _ _ _ _ _ _ _ _ (init_table_inv cfg) Hloop)
      as (_ & _ & Hexit).
    pose proof (loop_exit_state _ _ _ _ _ _ _ _ _ (init_table_inv cfg) Hloop)
      as Hstate.
    simpl in *. destruct exit; try done.
    destruct Hexit as (_ & Hab & _). by rewrite globalAbort_never in Hab. }
  split.
  - by apply (all_finished_no_runner cfg); [apply execution_table_inv|].
  - apply Forall_forall. intros r Hr.
    rewrite Forall_forall in Hall. specialize (Hall r Hr).
    destruct (executeSimulation_steps cfg env fuel) as (Hlink & Hfinal & Hsteps).
    pose proof (steps_start_counts cfg env r _ _ 0 0 (init_table_inv cfg)
                  Hlink Hsteps) as HJ.
    rewrite <- Hfinal in HJ. simpl in HJ.
    destruct HJ as [H|[H|H]]; try lia.
    left. repeat split. unfold status. simpl. rewrite init_status_lookup.
    by case_decide.
Qed.

Lemma normal_return_means_batch_done_witness :
  runningReplicates (final (executeSimulation batch_cfg batch_env 3100)) = []
  ∧ Forall (fun r =>
        status (final (executeSimulation batch_cfg batch_env 3100)) r = 2
        ∧ count_events (is_start_of r)
            (event <$> steps (executeSimulation batch_cfg batch_env 3100))
          = 1%nat
        ∧ count_events (is_completion_of r)
            (event <$> steps (executeSimulation batch_cfg batch_env 3100))
          = 1%nat)
      (replicates batch_cfg).
Proof.
  apply (normal_return_means_batch_done batch_cfg batch_env 3100).
  - reflexivity.
  - vm_compute. reflexivity.
Defined.


(** ** Completion *)

Lemma loop_resume cfg env fuel1 fuel2 i s sts1 s1 r1 :
  scheduling_loop cfg env fuel1 i s = (StillRunning, sts1, s1, r1) →
  scheduling_loop cfg env (fuel1 + fuel2) i s
  = let '(exit, sts2, s2, r2) := scheduling_loop cfg env fuel2 r1 s1 in
    (exit, sts1 ++ sts2, s2, r2).
Proof.
  revert i s sts1. induction fuel1 as [|fuel1 IH]; intros i s sts1; simpl.
  { intros [= <- <- <-].
    by destruct (scheduling_loop cfg env fuel2 i s) as [[[e t] u] r]. }
  destruct (globalAbort env i); [done|].
  destruct (iteration cfg env i s) as [[[| |e] sts0] s0]; try done.
  destruct (scheduling_loop cfg env fuel1 (S i) s0) as [[[e1 t1] u1] q1]
    eqn:Hloop.
  intros [= -> <- <- <-]. rewrite (IH _ _ _ Hloop).
  destruct (scheduling_loop cfg env fuel2 q1 u1) as [[[e2 t2] u2] q2].
  by rewrite app_assoc.
Qed.

Lemma iteration_waiting cfg env i s sts s' :
  table_inv cfg s → waiting cfg s →
  iteration cfg env i s = (Continue, sts, s') → waiting cfg s'.
Proof.
  intros Hinv [Hpos _] Hiter.
  pose proof (wrap_ull_bounds (noopLoopCycles s + 1)) as Hb.
  destruct (iteration_shape _ _ _ _ _ _ _ Hinv Hiter)
    as [(_ & _ & _ & _ & Hn)|(_ & [(Hn & _ & _ & ->)|[(_ & _ & _ & [=] & _)
        |[(_ & x & Hfp & _ & _ & _ & _ & ->)|(_ & Hblocked & tail & Hs & _)]]])].
  - split; lia.
  - split; [simpl; lia|]. lia.
  - split; [simpl; lia|]. intros _. exists x.
    split; [by eapply first_pending_elem|].
    unfold status. simpl. by rewrite lookup_insert_eq.
  - assert (table_inv cfg (ticked s)) as Hinv1.
    { eapply (step_table_inv cfg env); [apply step_iteration|done]. }
    destruct (sleep_shape cfg env i (ticked s) Hinv1) as (p & Heq & _).
    rewrite Heq in Hs. injection Hs as _ _ <-.
    split; [simpl; lia|]. intros _.
    unfold nothing_to_start in Hblocked.
    destruct (first_pending (ticked s) (replicates cfg)) as [x|] eqn:Hfp;
      [|done].
    exists x. split; [by eapply first_pending_elem|].
    destruct (first_pending_split _ _ _ Hfp) as (_ & _ & _ & H0 & _). lia.
Qed.

Lemma loop_waiting cfg env fuel i s sts s' reads :
  table_inv cfg s → waiting cfg s →
  scheduling_loop cfg env fuel i s = (StillRunning, sts, s', reads) →
  waiting cfg s'.
Proof.
  revert i s sts. induction fuel as [|fuel IH]; intros i s sts Hinv Hw; simpl.
  { by intros [= <- <- <-]. }
  destruct (globalAbort env i); [done|].
  destruct (iteration cfg env i s) as [[c sts0] s0] eqn:Hiter.
  destruct (iteration_steps _ _ _ _ _ _ _ Hinv Hiter) as (Hl & Hs0 & Hst & _).
  destruct c as [| |e]; try done.
  destruct (scheduling_loop cfg env fuel (S i) s0) as [[[e1 t1] u1] q1]
    eqn:Hloop.
  intros [= -> <- <- <-]. eapply IH; [| |exact Hloop].
  - subst s0. by apply (steps_preserve cfg env (table_inv cfg) s sts0
                          (step_table_inv cfg env)).
  - by eapply iteration_waiting.
Qed.

(** From a state in which every replicate is Finished, the loop only counts
    its idle cycles up to 1001 and leaves through the all-finished test. *)
Lemma idle_exit cfg env fuel i s :
  abortRaisedAt env = None →
  table_inv cfg s →
  Forall (fun x => status s x = 2) (replicates cfg) →
  0 ≤ noopLoopCycles s ≤ 1000 →
  1001 - noopLoopCycles s ≤ Z.of_nat fuel →
  ∃ sts s' reads,
    scheduling_loop cfg env fuel i s = (AllFinished, sts, s', reads)
    ∧ Forall (fun st => event st = LoopIteration) sts
    ∧ Z.of_nat (length sts) = 1001 - noopLoopCycles s.
Proof.
  intros Hflag. revert i s.
  induction fuel as [|fuel IH]; intros i s Hinv Hall Hn Hfuel; [lia|].
  simpl. rewrite globalAbort_never by done.
  destruct (iteration cfg env i s) as [[c sts0] s0] eqn:Hiter.
  pose proof (all_finished_no_runner cfg s Hinv Hall) as Hrun.
  assert (noopLoopCycles (ticked s) = noopLoopCycles s + 1) as Htick.
  { simpl. unfold wrap_ull. rewrite Z.mod_small; lia. }
  assert (Forall (fun x => status (ticked s) x = 2) (replicates cfg)) as Hall1
    by done.
  destruct (iteration_shape _ _ _ _ _ _ _ Hinv Hiter)
    as [(Hne & _)|(_ & [(Hidle & -> & -> & ->)|[(Hidle & _ & -> & -> & ->)
        |[(_ & x & Hfp & _)|(_ & Hblocked & _)]]])].
  - rewrite Hrun in Hne. done.
  - assert (table_inv cfg (ticked s)) as Hinv1.
    { eapply (step_table_inv cfg env); [apply step_iteration|done]. }
    destruct (IH (S i) (ticked s) Hinv1 Hall1) as (sts & s' & reads & -> & Hev & Hlen);
      [lia|lia|].
    eexists _, _, _. split; [reflexivity|]. split.
    + by constructor.
    + simpl length. lia.
  - eexists _, _, _. split; [reflexivity|]. split.
    + by repeat constructor.
    + simpl. lia.
  - exfalso. destruct (first_pending_split _ _ _ Hfp) as (l1 & l2 & Heq & H0 & _).
    rewrite Forall_forall in Hall1.
    assert (status (ticked s) x = 2) by (apply Hall1; rewrite Heq; set_solver).
    lia.
  - exfalso. unfold nothing_to_start in Hblocked.
    destruct (first_pending (ticked s) (replicates cfg)) as [x|] eqn:Hfp.
    + destruct (first_pending_split _ _ _ Hfp) as (l1 & l2 & Heq & H0 & _).
      rewrite Forall_forall in Hall1.
      assert (status (ticked s) x = 2) by (apply Hall1; rewrite Heq; set_solver).
      lia.
    + destruct Hblocked as (x & Hx & Hne).
      rewrite Forall_forall in Hall1. by apply Hne, Hall1.
Qed.

(** X16. The batch does not hang once it is done: if, with the abort flag
    unset, the loop is still running after some iterations and every
    replicate of the list is Finished, then [executeSimulation] returns
    normally within 1001 further iterations, all of them idle. An empty
    replicate list is the case of no iteration at all. *)
Theorem finished_batch_returns cfg env fuel :
  setupFailure env = None → getMaxSimultaneousReplicates env ≠ 0 →
  abortRaisedAt env = None →
  returned (executeSimulation cfg env fuel) = None →
  Forall (fun r => status (final (executeSimulation cfg env fuel)) r = 2)
    (replicates cfg) →
  returned (executeSimulation cfg env (fuel + 1001)) = Some (Ok tt)
  ∧ ∃ idle, steps (executeSimulation cfg env (fuel + 1001))
            = steps (executeSimulation cfg env fuel) ++ idle
            ∧ Forall (fun st => event st = LoopIteration) idle
            ∧ (length idle ≤ 1001)%nat.
Proof.
  intros Hsetup Hmax Hflag Hret Hall.
  rewrite !executeSimulation_run in * by done.
  destruct (scheduling_loop cfg env fuel _ _) as [[[exit sts] s] reads]
    eqn:Hloop.
  simpl in Hret, Hall. destruct exit; try done.
  rewrite (loop_resume _ _ _ _ _ _ _ _ _ Hloop).
  destruct (loop_steps _ _ _ _ _ _ _ _ _ (init_table_inv cfg) Hloop)
    as (Hlink & Hs & Hsteps & _).
  assert (table_inv cfg s) as Hinv.
  { subst s. by apply (steps_preserve cfg env (table_inv cfg) _ sts
                         (step_table_inv cfg env) Hlink Hsteps
                         (init_table_inv cfg)). }
  assert (waiting cfg s) as [Hpos Hw].
  { eapply loop_waiting; [apply init_table_inv| |exact Hloop].
    split; simpl; lia. }
  assert (noopLoopCycles s ≤ 1000) as Hle.
  { destruct (Z.le_gt_cases (noopLoopCycles s) 1000) as [|Hgt]; [done|].
    destruct (Hw ltac:(lia)) as (r & Hr & Hne).
    rewrite Forall_forall in Hall. by apply Hall in Hr. }
  destruct (idle_exit cfg env 1001 reads s Hflag Hinv Hall ltac:(lia)
              ltac:(lia)) as (idle & s' & reads' & -> & Hev & Hlen).
  simpl. split; [done|]. exists idle.
  split; [done|]. split; [done|]. lia.
Qed.

Lemma finished_batch_returns_witness :
  returned (executeSimulation batch_cfg batch_env 2008) = None
  ∧ returned (executeSimulation batch_cfg batch_env (2008 + 1001))
    = Some (Ok tt)
  ∧ returned (executeSimulation empty_cfg batch_env 1001) = Some (Ok tt).
Proof.
  assert (returned (executeSimulation batch_cfg batch_env 2008) = None)
    as Hret by (vm_compute; reflexivity).
  split; [exact Hret|]. split.
  - refine (proj1 (finished_batch_returns batch_cfg batch_env 2008
                     eq_refl _ eq_refl Hret _)).
    + vm_compute. discriminate.
    + vm_compute. repeat constructor.
  - refine (proj1 (finished_batch_returns empty_cfg batch_env 0
                     eq_refl _ eq_refl eq_refl _)).
    + vm_compute. discriminate.
    + constructor.
Defined.

(** ** The status table and the exit code *)

Lemma table_inv_dom cfg s :
  table_inv cfg s →
  dom (simulationStatusTable s) = (list_to_set (replicates cfg) : gset Z).
Proof.
  intros Hinv. apply set_eq. intros r.
  rewrite elem_of_dom, elem_of_list_to_set. split.
  - apply (inv_dom _ _ Hinv).
  - apply (inv_keys _ _ Hinv).
Qed.

(** X18. The status table has exactly the ids of the replicate list as its
    keys, before and after every step: the reads [simulationStatusTable[id]]
    of the loop never insert an entry, and no entry is ever removed. *)
Theorem status_table_keys_fixed cfg env fuel :
  Forall (fun st =>
      dom (simulationStatusTable (pre st))
      = (list_to_set (replicates cfg) : gset Z)
      ∧ dom (simulationStatusTable (post st))
        = (list_to_set (replicates cfg) : gset Z))
    (steps (executeSimulation cfg env fuel)).
Proof.
  destruct (executeSimulation_steps cfg env fuel) as (Hlink & _ & Hsteps).
  destruct (steps_preserve cfg env (table_inv cfg) _ _
              (step_table_inv cfg env) Hlink Hsteps (init_table_inv cfg))
    as [Hall _].
  eapply Forall_impl; [exact Hall|]. simpl.
  intros st [Hpre Hpost]. split; by apply table_inv_dom.
Qed.

(** X19. [main] exits with 0 or -1 and nothing else; the functions "help",
    "version" and "devices" exit with 0 whatever the simulation would do,
    any function other than these three and "simulation" is an invalid
    command-line argument and exits with -1, and the exit code is open only
    while the simulation is still running. *)
Theorem main_exit_codes cfg env fuel :
  (main cfg env fuel = None ∨ main cfg env fuel = Some 0
   ∨ main cfg env fuel = Some (-1))
  ∧ (main cfg env fuel = None →
     functionOption cfg = "simulation"
     ∧ returned (executeSimulation cfg env fuel) = None)
  ∧ (parseArgumentsFailure env = None →
     functionOption cfg = "help" ∨ functionOption cfg = "version"
     ∨ functionOption cfg = "devices" →
     main cfg env fuel = Some 0)
  ∧ (parseArgumentsFailure env = None →
     functionOption cfg ≠ "help" → functionOption cfg ≠ "version" →
     functionOption cfg ≠ "devices" → functionOption cfg ≠ "simulation" →
     main cfg env fuel = Some (-1)).
Proof.
  unfold main.
  destruct (parseArgumentsFailure env) as [e|].
  { repeat split; try done. right. right. by destruct e. }
  destruct (String.eqb_spec (functionOption cfg) "help") as [->|H1].
  { repeat split; try done. by right; left. }
  destruct (String.eqb_spec (functionOption cfg) "version") as [->|H2].
  { repeat split; try done. by right; left. }
  destruct (String.eqb_spec (functionOption cfg) "devices") as [->|H3].
  { repeat split; try done. by right; left. }
  destruct (String.eqb_spec (functionOption cfg) "simulation") as [->|H4].
  - destruct (returned (executeSimulation _ env fuel)) as [[[]|e]|];
      repeat split; try done; try tauto;
      try (intros _ [?|[?|?]]; done);
      try (right; right; by destruct e).
  - repeat split; try done; try tauto.
Qed.

(** X20. A replicate is started only after more than 1000 idle cycles:
    before every start the idle-cycle counter exceeds 1000, so at least 1001
    loop iterations have begun since the last reap (or since the loop
    began), and the id started is not negative. *)
Theorem start_waits_for_idle_cycles cfg env fuel l1 st l2 r :
  steps (executeSimulation cfg env fuel) = l1 ++ st :: l2 →
  event st = ReplicateStarted r →
  1000 < noopLoopCycles (pre st)
  ∧ (1001 ≤ idle_iterations 0 (event <$> l1))%nat
  ∧ 0 ≤ r.
Proof.
  intros Heq Hev.
  destruct (executeSimulation_steps cfg env fuel) as (Hlink & _ & Hsteps).
  rewrite Heq in Hlink, Hsteps.
  apply linked_app in Hlink as [Hl1 [Hpre _]].
  apply Forall_app in Hsteps as [Hs1 Hs2].
  apply Forall_cons in Hs2 as [Hst _].
  pose proof (steps_idle cfg env _ l1 0 Hl1 Hs1 ltac:(simpl; lia)) as [_ Hidle].
  rewrite <- Hpre in Hidle.
  destruct st as [s e s']. unfold is_step in Hst. simpl in *. subst e.
  inversion Hst as [| |s1 r1 Hfp Hr Hlt Hn| |]; subst.
  repeat split; [done|lia|done].
Qed.

Lemma start_waits_for_idle_cycles_witness :
  (1001 ≤ idle_iterations 0
            (event <$> take 1001
               (steps (executeSimulation batch_cfg batch_env 1002))))%nat.
Proof.
  destruct (steps (executeSimulation batch_cfg batch_env 1002) !! 1001%nat)
    as [st|] eqn:Hst; [|vm_compute in Hst; discriminate].
  assert (event <$> steps (executeSimulation batch_cfg batch_env 1002)
                      !! 1001%nat = Some (ReplicateStarted 0)) as Hev
    by (vm_compute; reflexivity).
  rewrite Hst in Hev. injection Hev as Hev.
  refine (proj1 (proj2 (start_waits_for_idle_cycles batch_cfg batch_env 1002
                          _ st _ 0 _ Hev))).
  symmetry. apply take_drop_middle. exact Hst.
Defined.

(** ** The scan, the start it leads to, and the abort flag *)

Lemma find_simulation_scan s its replicate allFinished :
  find_simulation (simulationStatusTable s) its replicate allFinished
  = match first_pending s its with
    | Some r => (r, false, (index (simulationStatusTable s) r).2)
    | None => (replicate,
               allFinished && forallb (fun r => status s r =? 2) its,
               simulationStatusTable s)
    end.
Proof.
  revert allFinished. induction its as [|it its IH]; intros allFinished.
  - simpl. by rewrite andb_true_r.
  - cbn [find_simulation first_pending forallb].
    destruct (simulationStatusTable s !! it) as [v|] eqn:Hv.
    + assert (status s it = v) as Hst by (unfold status; by rewrite Hv).
      rewrite !index_present by eauto. rewrite Hv, Hst.
      change (default 0 (Some v)) with v.
      destruct (v =? 0) eqn:H0.
      * by rewrite index_present by eauto.
      * rewrite IH. destruct (first_pending s its); [done|].
        destruct (v =? 2), allFinished; done.
    + assert (status s it = 0) as Hst by (unfold status; by rewrite Hv).
      assert (index (simulationStatusTable s) it
              = (0, <[it := 0]> (simulationStatusTable s))) as Hidx
        by (unfold index; by rewrite Hv).
      rewrite Hidx, Hst. cbn. by rewrite Hidx.
Qed.

Lemma first_pending_iff s its r :
  first_pending s its = Some r
  ↔ ∃ l1 l2, its = l1 ++ r :: l2 ∧ status s r = 0
             ∧ Forall (fun x => status s x ≠ 0) l1.
Proof.
  split; [apply first_pending_split|].
  intros (l1 & l2 & -> & H0 & Hl1).
  rewrite first_pending_app by done. simpl. by rewrite H0.
Qed.

Lemma reap_none env turns i j s :
  popNextFinishedReplicate
    (fun x => hasReplicateFinished env i j (getReplicate x))
    (runningReplicates s) = None →
  reap env turns i j s = ([], s).
Proof. intros H. destruct turns; simpl; [done|]. by rewrite H. Qed.

Lemma iteration_starts cfg env i s r :
  table_inv cfg s →
  popNextFinishedReplicate
    (fun x => hasReplicateFinished env i 0 (getReplicate x))
    (runningReplicates s) = None →
  1000 < noopLoopCycles (ticked s) →
  first_pending s (replicates cfg) = Some r →
  0 ≤ r →
  assignedSimulations s < getMaxSimultaneousReplicates env →
  iteration cfg env i s
  = (Continue,
     [{| pre := s; event := LoopIteration; post := ticked s |};
      {| pre := ticked s; event := ReplicateStarted r;
         post := started (ticked s) r (startReplicate r) |}],
     started (ticked s) r (startReplicate r)).
Proof.
  intros Hinv Hpop Hidle Hfp Hr Hlt.
  assert (first_pending (ticked s) (replicates cfg) = Some r) as Hfp1
    by (rewrite <- Hfp; by apply first_pending_table).
  destruct (iteration cfg env i s) as [[c sts] s'] eqn:Hiter.
  destruct (iteration_shape _ _ _ _ _ _ _ Hinv Hiter)
    as [(Hne & _)|(_ & [(Hle & _)|[(_ & Hall & _)
        |[(_ & x & Hx & _ & _ & -> & -> & ->)|(_ & Hblocked & _)]]])].
  - exfalso. apply Hne. by rewrite (reap_none env _ i 0 (ticked s) Hpop).
  - lia.
  - exfalso. destruct (first_pending_split _ _ _ Hfp1) as (l1 & l2 & Heq & H0 & _).
    rewrite Forall_forall in Hall.
    assert (status (ticked s) r = 2) by (apply Hall; rewrite Heq; set_solver).
    lia.
  - rewrite Hfp1 in Hx. by injection Hx as <-.
  - exfalso. unfold nothing_to_start in Hblocked. rewrite Hfp1 in Hblocked.
    simpl in Hblocked. lia.
Qed.

Lemma returned_none_setup cfg env fuel :
  returned (executeSimulation cfg env fuel) = None →
  setupFailure env = None ∧ getMaxSimultaneousReplicates env ≠ 0.
Proof.
  intros Hret. destruct (setupFailure env) as [e|] eqn:Hsetup.
  { unfold executeSimulation in Hret. by rewrite Hsetup in Hret. }
  split; [done|]. intros H0.
  unfold executeSimulation in Hret. by rewrite Hsetup, H0 in Hret.
Qed.

(** An execution that is still running after [fuel] iterations stands
    before read [fuel] of the flag, in the state [final]. *)
Lemma still_running_loop cfg env fuel :
  returned (executeSimulation cfg env fuel) = None →
  scheduling_loop cfg env fuel 0 (init_state (replicates cfg))
  = (StillRunning, steps (executeSimulation cfg env fuel),
     final (executeSimulation cfg env fuel), fuel).
Proof.
  intros Hret. destruct (returned_none_setup _ _ _ Hret) as [Hsetup Hmax].
  rewrite executeSimulation_run in * by done.
  destruct (scheduling_loop _ _ _ _ _) as [[[exit sts] s] reads] eqn:Hloop.
  destruct (loop_reads _ _ _ _ _ _ _ _ _ (init_table_inv cfg) Hloop)
    as (_ & _ & Hexit).
  simpl in *. destruct exit; try done.
  destruct Hexit as [-> Hn]. by rewrite Hn.
Qed.

Lemma execution_next_iteration cfg env fuel c sts s' :
  returned (executeSimulation cfg env fuel) = None →
  globalAbort env fuel = false →
  iteration cfg env fuel (final (executeSimulation cfg env fuel))
  = (c, sts, s') →
  steps (executeSimulation cfg env (S fuel))
  = steps (executeSimulation cfg env fuel) ++ sts.
Proof.
  intros Hret Hab Hiter.
  destruct (returned_none_setup _ _ _ Hret) as [Hsetup Hmax].
  pose proof (still_running_loop _ _ _ Hret) as Hloop.
  rewrite (executeSimulation_run cfg env (S fuel)) by done.
  replace (S fuel) with (fuel + 1)%nat by lia.
  rewrite (loop_resume _ _ _ 1 _ _ _ _ _ Hloop).
  simpl scheduling_loop. rewrite Hab, Hiter.
  destruct c; simpl; by rewrite ?app_nil_r.
Qed.

(** C5. Whenever the scheduler starts a replicate, it starts the first
    replicate of the input list whose status is Pending. The scan of the
    replicate list returns the first entry with status 0 (and no longer
    "all finished"), or -1 and whether every entry has status 2 when no
    entry is Pending; being the first Pending entry means that the list
    reads [l1 ++ r :: l2] with [r] Pending and nothing Pending in [l1];
    every start of an execution is a start of this entry; and the start
    does take place: when the loop is still running and idle, no runner
    reports finished, a slot is free and the first Pending entry is not
    negative, the next iteration is the tick and the start of that entry. *)
Theorem start_takes_first_pending cfg env fuel :
  let ex := executeSimulation cfg env fuel in
  (∀ s, find_simulation (simulationStatusTable s) (replicates cfg) (-1) true
        = match first_pending s (replicates cfg) with
          | Some r => (r, false, (index (simulationStatusTable s) r).2)
          | None => (-1,
                     forallb (fun r => status s r =? 2) (replicates cfg),
                     simulationStatusTable s)
          end)
  ∧ (∀ s r, first_pending s (replicates cfg) = Some r
            ↔ ∃ l1 l2, replicates cfg = l1 ++ r :: l2
                       ∧ status s r = 0
                       ∧ Forall (fun x => status s x ≠ 0) l1)
  ∧ Forall (fun st => ∀ r,
        event st = ReplicateStarted r →
        first_pending (pre st) (replicates cfg) = Some r
        ∧ ∃ l1 l2, replicates cfg = l1 ++ r :: l2
                   ∧ status (pre st) r = 0
                   ∧ Forall (fun x => status (pre st) x ≠ 0) l1)
      (steps ex)
  ∧ (∀ r,
       returned ex = None →
       globalAbort env fuel = false →
       popNextFinishedReplicate
         (fun x => hasReplicateFinished env fuel 0 (getReplicate x))
         (runningReplicates (final ex)) = None →
       1000 < noopLoopCycles (ticked (final ex)) →
       first_pending (final ex) (replicates cfg) = Some r →
       0 ≤ r →
       assignedSimulations (final ex) < getMaxSimultaneousReplicates env →
       steps (executeSimulation cfg env (S fuel))
       = steps ex
         ++ [{| pre := final ex; event := LoopIteration;
                post := ticked (final ex) |};
             {| pre := ticked (final ex); event := ReplicateStarted r;
                post := started (ticked (final ex)) r (startReplicate r) |}]).
Proof.
  cbv zeta. split; [|split; [|split]].
  - intros s. by rewrite find_simulation_scan.
  - intros s r. apply first_pending_iff.
  - destruct (executeSimulation_steps cfg env fuel) as (_ & _ & Hsteps).
    eapply Forall_impl; [exact Hsteps|]. simpl.
    intros [s e s'] Hst r Hev. unfold is_step in Hst. simpl in *. subst e.
    inversion Hst as [| |s1 r1 Hfp _ _ _| |]; subst.
    split; [done|]. by apply first_pending_split.
  - intros r Hret Hab Hpop Hidle Hfp Hr Hlt.
    eapply execution_next_iteration; [done|done|].
    apply iteration_starts; try done. apply execution_table_inv.
Qed.

Lemma start_takes_first_pending_witness :
  find_simulation
    (simulationStatusTable
       (final (executeSimulation batch_cfg batch_env 1001)))
    (replicates batch_cfg) (-1) true
  = (1, false,
     simulationStatusTable (final (executeSimulation batch_cfg batch_env 1001)))
  ∧ started_ids
      (event <$> drop 1000 (steps (executeSimulation batch_cfg batch_env 1002)))
    = [0; 1].
Proof.
  destruct (start_takes_first_pending batch_cfg batch_env 1000)
    as (_ & _ & _ & Hstart0).
  destruct (start_takes_first_pending batch_cfg batch_env 1001)
    as (Hscan & _ & _ & Hstart1).
  split.
  - rewrite Hscan. vm_compute. reflexivity.
  - rewrite (Hstart1 1); [|vm_compute; reflexivity|reflexivity
                          |vm_compute; reflexivity|vm_compute; reflexivity
                          |vm_compute; reflexivity|lia
                          |vm_compute; reflexivity].
    rewrite (Hstart0 0); [|vm_compute; reflexivity|reflexivity
                          |vm_compute; reflexivity|vm_compute; reflexivity
                          |vm_compute; reflexivity|lia
                          |vm_compute; reflexivity].
    rewrite <- app_assoc, drop_app_length'; [reflexivity|].
    vm_compute. reflexivity.
Defined.

(** C3, as the code has it. Once the loop condition reads the global abort
    flag as set, no Pending replicate is started: from that read on the
    loop exits without a step, whatever its state; when the loop is still
    running after [n] iterations and read [n] sees the flag,
    [executeSimulation] returns with the steps and the state reached by
    then, so that a replicate that was Pending stays Pending and is never
    started; its [n] iterations are those whose condition read the flag as
    unset; and its trace ends with the shutdown of the abort path, stopping
    the checkpointing first and then calling [abortWorkers], not
    [stopWorkers]. The flag is read nowhere else in the loop: the iteration
    during which it is set runs to its end. *)
Theorem abort_stops_scheduling cfg env fuel n sts s reads :
  setupFailure env = None → getMaxSimultaneousReplicates env ≠ 0 →
  abortRaisedAt env = Some n → (n < fuel)%nat →
  scheduling_loop cfg env n 0 (init_state (replicates cfg))
  = (StillRunning, sts, s, reads) →
  let ex := executeSimulation cfg env fuel in
  (∀ i s' fuel', (n ≤ i)%nat →
     scheduling_loop cfg env (S fuel') i s' = (AbortRequested, [], s', S i)
     ∧ shutdown env (S i) = [StopCheckpointing; AbortWorkers])
  ∧ returned ex = Some (Ok tt)
  ∧ steps ex = sts
  ∧ final ex = s
  ∧ count_events is_iteration (trace ex) = n
  ∧ trace ex = (parameter_event <$> cmdline_parameters cfg)
               ++ (event <$> sts)
               ++ [StopCheckpointing; AbortWorkers]
  ∧ (∀ r, status s r = 0 →
          status (final ex) r = 0
          ∧ count_events (is_start_of r) (event <$> steps ex) = O).
Proof.
  intros Hsetup Hmax Hn Hfuel Hloop. cbv zeta.
  split.
  { intros i s' fuel' Hi. simpl. unfold shutdown.
    rewrite (proj2 (globalAbort_raised env n i Hn)) by done.
    rewrite (proj2 (globalAbort_raised env n (S i) Hn)) by lia. done. }
  destruct (loop_reads _ _ _ _ _ _ _ _ _ (init_table_inv cfg) Hloop)
    as (_ & _ & Hreads & Hcount).
  cbv zeta in Hreads, Hcount. rewrite Hcount in Hreads. simpl in Hreads.
  subst reads.
  destruct (loop_steps _ _ _ _ _ _ _ _ _ (init_table_inv cfg) Hloop)
    as (Hlink & Hfinal & Hsteps & _).
  assert (scheduling_loop cfg env fuel 0 (init_state (replicates cfg))
          = (AbortRequested, sts, s, S n)) as Hfull.
  { replace fuel with (n + S (fuel - S n))%nat by lia.
    rewrite (loop_resume _ _ _ _ _ _ _ _ _ Hloop). simpl.
    rewrite (proj2 (globalAbort_raised env n n Hn)) by done.
    by rewrite app_nil_r. }
  rewrite (executeSimulation_run cfg env fuel) by done. rewrite Hfull.
  cbn [returned steps final trace]. unfold shutdown.
  rewrite (proj2 (globalAbort_raised env n (S n) Hn)) by lia.
  repeat split; try done.
  - rewrite !count_events_app.
    rewrite (count_iterations_neutral (parameter_event <$> _))
      by apply parameter_event_neutral.
    rewrite Hcount. by change (count_events is_iteration [_; _]) with O.
  - pose proof (steps_start_counts cfg env r _ _ 0 0 (init_table_inv cfg)
                  Hlink Hsteps) as HJ.
    rewrite <- Hfinal in HJ. simpl in HJ.
    destruct HJ as [HJ|[HJ|HJ]]; try lia.
    left. repeat split. unfold status. simpl. rewrite init_status_lookup.
    by case_decide.
Qed.

Lemma abort_stops_scheduling_witness :
  returned (executeSimulation batch_cfg (aborted_env 1003) 1100)
  = Some (Ok tt)
  ∧ count_events is_iteration
      (trace (executeSimulation batch_cfg (aborted_env 1003) 1100))
    = 1003%nat
  ∧ (∃ sts,
       trace (executeSimulation batch_cfg (aborted_env 1003) 1100)
       = (parameter_event <$> cmdline_parameters batch_cfg)
         ++ (event <$> sts) ++ [StopCheckpointing; AbortWorkers]
       ∧ started_ids (event <$> sts) = [0; 1])
  ∧ status (final (executeSimulation batch_cfg (aborted_env 1003) 1100)) 2 = 0
  ∧ count_events (is_start_of 2)
      (event <$> steps (executeSimulation batch_cfg (aborted_env 1003) 1100))
    = O.
Proof.
  pose proof (eq_refl : (let x := scheduling_loop batch_cfg (aborted_env 1003)
                                    1003 0 (init_state (replicates batch_cfg))
                         in (x.1.1.1, status x.1.2 2,
                             started_ids (event <$> x.1.1.2)))
                        = (StillRunning, 0, [0; 1])) as H.
  cbv zeta in H.
  destruct (scheduling_loop batch_cfg (aborted_env 1003) 1003 0
              (init_state (replicates batch_cfg)))
    as [[[exit sts] s] reads] eqn:Hloop.
  cbn [fst snd] in H. injection H as -> Hs2 Hids.
  destruct (abort_stops_scheduling batch_cfg (aborted_env 1003) 1100 1003
              sts s reads)
    as (_ & Hret & _ & _ & Hcount & Htrace & Hpending).
  - reflexivity.
  - vm_compute. discriminate.
  - reflexivity.
  - lia.
  - exact Hloop.
  - destruct (Hpending 2 Hs2) as [H2 Hnone].
    refine (conj Hret (conj Hcount (conj _ (conj H2 Hnone)))).
    exists sts. by split.
Defined.

(** C3, as it is worded, fails. The flag is first seen set by read 1001, so
    it is set during iteration 1000, after read 1000 found it unset; that
    iteration is the first to find the loop idle, and it starts replicate 0
    all the same: 1001 iterations have begun before this start. *)
Lemma abort_during_iteration_still_starts :
  (globalAbort (aborted_env 1001) 1000 = false
   ∧ globalAbort (aborted_env 1001) 1001 = true
   ∧ ∃ tr1 tr2,
       trace (executeSimulation batch_cfg (aborted_env 1001) 1100)
       = tr1 ++ ReplicateStarted 0 :: tr2
       ∧ count_events is_iteration tr1 = 1001%nat
       ∧ tr2 = [StopCheckpointing; AbortWorkers])
  ∧ ¬ no_start_once_flag_set batch_cfg (aborted_env 1001) 1100.
Proof.
  assert (trace (executeSimulation batch_cfg (aborted_env 1001) 1100)
            !! 1003%nat = Some (ReplicateStarted 0)) as Hat
    by (vm_compute; reflexivity).
  apply take_drop_middle in Hat. symmetry in Hat.
  assert (count_events is_iteration
            (take 1003 (trace (executeSimulation batch_cfg
                                 (aborted_env 1001) 1100))) = 1001%nat)
    as Hcount by (vm_compute; reflexivity).
  split.
  - split; [reflexivity|]. split; [reflexivity|].
    eexists _, _. split; [exact Hat|]. split; [exact Hcount|].
    vm_compute. reflexivity.
  - intros Hclaim.
    specialize (Hclaim 1000%nat eq_refl eq_refl _ _ _ Hat).
    rewrite Hcount in Hclaim. lia.
Qed.
